(** * Optimiser.cpp: the local-move, merge and multi-level driver routines

    A shallow embedding of [src/src/leidenalg/Optimiser.cpp].

    - C++ [double] is the kernel's binary64 [float]; the comparisons
      [a > b] of the source are [b <? a].
    - [size_t] and the vertex and community numbers held in [int] are [nat]
      (the source never does arithmetic on them); [n_iterations] and the
      loop counter [i] are [Z].
    - A [MutableVertexPartition*] is an index into a store of partition
      objects, so that in-place mutation, [copy()] and the re-seating of the
      local pointer [partition] are told apart.
    - The [while (improvement)] and [while (was_improvement ...)] loops
      take a fuel; a loop that runs out of it ends in [Diverge], tagged with
      the loop and carrying the state it reached.
    - Reading [is_membership_fixed] beyond its end, dereferencing a pointer
      that is not in the store and [partitions[0]] on an empty vector are
      undefined behaviour: the call ends in [Undefined]. *)

From stdpp Require Import base list strings.
From Stdlib Require Import ZArith Floats.

Local Open Scope Z_scope.
Local Open Scope nat_scope.

(** ** Configuration constants (declared in Optimiser.h) *)

(** The values of [consider_comms] and of [optimise_routine] and
    [refine_routine]; the source holds them in [int] and compares them with
    these names only. *)

Inductive consider_comms_t : Set :=
| ALL_COMMS
| ALL_NEIGH_COMMS
| RAND_COMM
| RAND_NEIGH_COMM.

Inductive routine_t : Set :=
| MOVE_NODES
| MERGE_NODES.

#[global] Instance consider_comms_eq_dec : EqDecision consider_comms_t.
Proof. solve_decision. Defined.

#[global] Instance routine_eq_dec : EqDecision routine_t.
Proof. solve_decision. Defined.

(** ** Outcomes of a call *)

Inductive loop_tag : Set :=
| InMoveNodes   (* [while (improvement)] of [move_nodes_impl] *)
| InMergeNodes  (* [while (improvement)] of [merge_nodes] *)
| InDriver.     (* [while (was_improvement ...)] of the drivers *)

Inductive outcome (A S : Type) : Type :=
| Ret (a : A) (s : S)              (* normal return *)
| Throw (msg : string) (s : S)     (* a C++ exception, with the state at the throw *)
| Undefined                        (* undefined behaviour (bad index or pointer) *)
| Diverge (l : loop_tag) (s : S).  (* loop [l] ran out of fuel in state [s] *)

Arguments Ret {A S} a s.
Arguments Throw {A S} msg s.
Arguments Undefined {A S}.
Arguments Diverge {A S} l s.

Definition M (S A : Type) : Type := S -> outcome A S.

Definition ret {S A} (a : A) : M S A := fun s => Ret a s.

Definition bind {S A B} (m : M S A) (k : A -> M S B) : M S B :=
  fun s =>
    match m s with
    | Ret a s' => k a s'
    | Throw msg s' => Throw msg s'
    | Undefined => Undefined
    | Diverge l s' => Diverge l s'
    end.

Notation "'do' x <- m ; k" := (bind m (fun x => k))
  (at level 10, x pattern, m at level 100, k at level 200).

(** The same outcome with [f] applied to the state it carries. *)
Definition map_state {A S} (f : S -> S) (r : outcome A S) : outcome A S :=
  match r with
  | Ret a s => Ret a (f s)
  | Throw msg s => Throw msg (f s)
  | Undefined => Undefined
  | Diverge l s => Diverge l (f s)
  end.

(** The state an outcome carries, when it carries one. *)
Definition state_of {A S} (r : outcome A S) : option S :=
  match r with
  | Ret _ s | Throw _ s | Diverge _ s => Some s
  | Undefined => None
  end.

(** [bool improvement = true; while (improvement) { improvement = false;
    pass }], where [pass] gives the new state and the final value of
    [improvement], or nothing when it ran into undefined behaviour. *)
Fixpoint while_improvement {S} (l : loop_tag) (pass : S -> option (S * bool))
    (fuel : nat) (st : S) : outcome unit S :=
  match fuel with
  | O => Diverge l st
  | S fuel' =>
      match pass st with
      | None => Undefined
      | Some (st', improvement) =>
          if improvement : bool
          then while_improvement l pass fuel' st'
          else Ret tt st'
      end
  end.

(** [for (i_node = 0; i_node < nodes_to_visit.size(); i_node++)
    { i = nodes_to_visit[i_node]; body }]: the bodies in turn, up to the first
    one that runs into undefined behaviour. *)
Fixpoint for_each_node {St} (body : St -> nat -> option St) (nodes_to_visit : list nat)
    (st : St) : option St :=
  match nodes_to_visit with
  | [] => Some st
  | i :: rest =>
      match body st i with
      | None => None
      | Some st' => for_each_node body rest st'
      end
  end.

(** ** The random number generator of the optimiser (random.h) *)

(** Modelled from the spec: the generator behind [rng_init] and
    [rng_shuffle] is not in the sources. It is [seeded from the configured
    rng_seed] and consumed by [the per-pass vertex visit permutation]. *)
Class Rng (R : Type) : Type := {
  rng_seeded : Z -> R;
  rng_shuffled : R -> list nat -> list nat * R
}.

(** Modelled from the spec: [nodes_to_visit] is [a random permutation of
    [0,N)], so a shuffle permutes the vector it is given. *)
Class RngLaws (R : Type) `{Rng R} : Prop := {
  rng_shuffled_perm : forall (r : R) (l : list nat), (rng_shuffled r l).1 ≡ₚ l
}.

(** ** The optimiser object *)

Record Optimiser (R : Type) : Type := mkOptimiser {
  consider_comms : consider_comms_t;
  refine_consider_comms : consider_comms_t;
  optimise_routine : routine_t;
  refine_routine : routine_t;
  consider_empty_community : bool;
  refine_partition : bool;
  max_comm_size : nat;
  rng_seed : Z;
  rng : R
}.

Arguments mkOptimiser {R}.
Arguments consider_comms {R}.
Arguments refine_consider_comms {R}.
Arguments optimise_routine {R}.
Arguments refine_routine {R}.
Arguments consider_empty_community {R}.
Arguments refine_partition {R}.
Arguments max_comm_size {R}.
Arguments rng_seed {R}.
Arguments rng {R}.

Definition with_rng {R} (o : Optimiser R) (r : R) : Optimiser R :=
  mkOptimiser (consider_comms o) (refine_consider_comms o) (optimise_routine o)
    (refine_routine o) (consider_empty_community o) (refine_partition o)
    (max_comm_size o) (rng_seed o) r.

(** The setter of [max_comm_size]. *)
Definition set_max_comm_size {R} (o : Optimiser R) (max_comm_size : nat) : Optimiser R :=
  mkOptimiser (consider_comms o) (refine_consider_comms o) (optimise_routine o)
    (refine_routine o) (consider_empty_community o) (refine_partition o)
    max_comm_size (rng_seed o) (rng o).

(** A routine's state with the optimiser's [max_comm_size] set to [m]. *)
Definition resized {R P} (m : nat) (st : Optimiser R * P) : Optimiser R * P :=
  (set_max_comm_size st.1 m, st.2).

(** [this->rng_init()] *)
Definition rng_init {R} `{Rng R} (o : Optimiser R) : Optimiser R :=
  with_rng o (rng_seeded (rng_seed o)).

(** [this->rng_shuffle(v)]: the shuffled vector and the optimiser with its
    generator advanced. *)
Definition rng_shuffle {R} `{Rng R} (o : Optimiser R) (v : list nat)
  : list nat * Optimiser R :=
  let '(v', r') := rng_shuffled (rng o) v in (v', with_rng o r').

(** [range(n)] is the vector 0, 1, ..., n-1. *)
Definition range (n : nat) : list nat := seq 0 n.

(** ** The partition interface (MutableVertexPartition.h) *)

(** The abstract class the optimiser drives, over a graph class [G]. Its
    bodies are not in the sources; the optimiser only calls the methods
    below. [aggregate] is handed the optimiser, which it may advance, and
    returns a new object. *)
Class MutableVertexPartition (R G P : Type) : Type := {
  g : P -> G;
  g_vcount : G -> nat;
  membership : P -> list nat;
  n_communities : P -> nat;
  csize : P -> nat -> nat;
  quality : P -> float;
  diff_move : P -> nat -> nat -> float;
  move_node : P -> nat -> nat -> P;
  get_neigh_comm_weights : P -> nat -> nat -> list nat * list float;
  aggregate : P -> Optimiser R -> routine_t -> bool -> list bool -> P * Optimiser R;
  copy : P -> P;
  copy_from_graph : P -> G -> P
}.

(** [partition->g->vcount()] *)
Definition vcount {R G P} `{MutableVertexPartition R G P} (p : P) : nat :=
  g_vcount (g p).

(** Modelled from the spec: what [move_node] does to the object, whose body
    is not in the sources. [move_node(v, c_to)] [performs the move]: the
    membership of [v] becomes [c_to], no other entry changes, and the graph
    stays the same. *)
Class PartitionLaws (R G P : Type) `{MutableVertexPartition R G P} : Prop := {
  move_node_membership : forall (p : P) (v c : nat),
    membership (move_node p v c) = <[v:=c]> (membership p);
  move_node_graph : forall (p : P) (v c : nat),
    g (move_node p v c) = g p
}.

(** [is_membership_fixed[i]]: [operator[]] of [vector<bool>] does not check
    its index, and reading beyond the end of the vector the caller passed is
    undefined behaviour, here [None]. *)
Definition is_fixed_at (is_membership_fixed : list bool) (i : nat) : option bool :=
  is_membership_fixed !! i.

(** [partition->membership[i]]. A partition is built with one membership
    entry for each vertex of its graph (the spec has a membership of another
    length refused at construction), and the loops index it with the
    elements of [range(vcount())] only, so the read is within bounds; the 0
    given here to an index beyond the entries is not reached from such a
    partition. *)
Definition membership_at {R G P} `{MutableVertexPartition R G P} (p : P) (i : nat) : nat :=
  default 0 (membership p !! i).

(** ** Scoring the candidate communities of one vertex *)

Section Routines.
Context {R G P : Type} `{Rng R} `{MutableVertexPartition R G P}.

(** The locals [comm_to] and [max_q_gain] of the loop body. [scored] is a
    ghost field: the communities [diff_move] was called on, in order. *)
Record scan : Type := mkScan {
  comm_to : nat;
  max_q_gain : float;
  scored : list nat
}.

(** [q = diff_move(i, c); if (q > max_q_gain) { comm_to = c; max_q_gain = q; }] *)
Definition consider (p : P) (i c : nat) (s : scan) : scan :=
  let q_gain := diff_move p i c in
  if (max_q_gain s <? q_gain)%float
  then mkScan c q_gain (scored s ++ [c])
  else mkScan (comm_to s) (max_q_gain s) (scored s ++ [c]).

(** The loop over [neigh_comm] as filled by [get_neigh_comm_weights]. *)
Definition consider_neigh_comms (p : P) (i comm_from : nat) (s : scan) : scan :=
  let '(neigh_comm, neigh_comm_weight) := get_neigh_comm_weights p i comm_from in
  fold_left (fun s comm_neigh => consider p i comm_neigh s) neigh_comm s.

(** [for (c = 0; c < n_communities(); c++) if ((int)c != comm_from) ...] *)
Definition consider_all_comms (p : P) (i comm_from : nat) (s : scan) : scan :=
  fold_left
    (fun s c => if decide (c = comm_from) then s else consider p i c s)
    (range (n_communities p)) s.

(** The block guarded by [this->consider_empty_community]. *)
Definition consider_empty (o : Optimiser R) (p : P) (i : nat) (s : scan) : scan :=
  if consider_empty_community o
  then if n_communities p <? vcount p
       then consider p i (n_communities p) s
       else s
  else s.

Definition scan_init (comm_from : nat) : scan := mkScan comm_from 0%float [].

(** [nodes_to_visit = range(vcount()); rng_shuffle(nodes_to_visit);
    for (i_node ...) { i = nodes_to_visit[i_node]; body }]: the state of the
    [for] loop is the partition and the flag [improvement], false at its
    start. *)
Definition shuffled_pass (visit : Optimiser R -> P * bool -> nat -> option (P * bool))
    (st : Optimiser R * P) : option (Optimiser R * P * bool) :=
  let '(nodes_to_visit, o) := rng_shuffle st.1 (range (vcount st.2)) in
  match for_each_node (visit o) nodes_to_visit (st.2, false) with
  | None => None
  | Some (p, improvement) => Some (o, p, improvement)
  end.

(** ** [move_nodes_impl] (lines 12-82) *)

(** The scoring of vertex [i] in [move_nodes_impl]. *)
Definition move_nodes_impl_scan (o : Optimiser R) (p : P) (i : nat) : scan :=
  let comm_from := membership_at p i in
  consider_empty o p i (consider_neigh_comms p i comm_from (scan_init comm_from)).

(** One iteration of the [for] loop; the state is the partition and the
    flag [improvement]. *)
Definition move_nodes_impl_visit (o : Optimiser R) (is_membership_fixed : list bool)
    (st : P * bool) (i : nat) : option (P * bool) :=
  match is_fixed_at is_membership_fixed i with
  | None => None
  | Some true => Some st
  | Some false =>
      let s := move_nodes_impl_scan o st.1 i in
      if decide (comm_to s = membership_at st.1 i) then Some st
      else Some (move_node st.1 i (comm_to s), true)
  end.

(** One iteration of the [while] loop: shuffle, then visit every node. *)
Definition move_nodes_impl_pass (is_membership_fixed : list bool)
  : Optimiser R * P -> option (Optimiser R * P * bool) :=
  shuffled_pass (fun o => move_nodes_impl_visit o is_membership_fixed).

Definition move_nodes_impl (fuel : nat) (is_membership_fixed : list bool)
  : M (Optimiser R * P) unit :=
  while_improvement InMoveNodes (move_nodes_impl_pass is_membership_fixed) fuel.

(** [double move_nodes(partition, is_membership_fixed)] (lines 178-183) *)
Definition move_nodes (fuel : nat) (is_membership_fixed : list bool)
  : M (Optimiser R * P) float :=
  fun st =>
    let initial_quality := quality st.2 in
    (do _ <- move_nodes_impl fuel is_membership_fixed;
     fun st' => Ret (quality st'.2 - initial_quality)%float st') st.

(** ** [move_nodes] with [consider_comms] (lines 192-277): a single pass *)

(** The [if / else if] on the parameter [consider_comms]. *)
Definition consider_by (cc : consider_comms_t) (p : P) (i comm_from : nat)
    (s : scan) : scan :=
  match cc with
  | ALL_NEIGH_COMMS => consider_neigh_comms p i comm_from s
  | ALL_COMMS => consider_all_comms p i comm_from s
  | _ => s
  end.

Definition move_nodes4_scan (o : Optimiser R) (cc : consider_comms_t)
    (p : P) (i : nat) : scan :=
  let comm_from := membership_at p i in
  consider_empty o p i (consider_by cc p i comm_from (scan_init comm_from)).

(** One iteration of the [for] loop of the 4-argument forms:
    [if (comm_to != comm_from && max_q_gain > 0) move_node(i, comm_to)]. *)
Definition move_nodes4_visit (o : Optimiser R) (is_membership_fixed : list bool)
    (cc : consider_comms_t) (st : P * bool) (i : nat) : option (P * bool) :=
  match is_fixed_at is_membership_fixed i with
  | None => None
  | Some true => Some st
  | Some false =>
      let s := move_nodes4_scan o cc st.1 i in
      if negb (bool_decide (comm_to s = membership_at st.1 i)) && (0 <? max_q_gain s)%float
      then Some (move_node st.1 i (comm_to s), true)
      else Some st
  end.

(** The shuffle and the [for] loop. In [move_nodes] the flag is a ghost:
    the source keeps no [improvement] there. *)
Definition move_nodes4_pass (is_membership_fixed : list bool) (cc : consider_comms_t)
  : Optimiser R * P -> option (Optimiser R * P * bool) :=
  shuffled_pass (fun o => move_nodes4_visit o is_membership_fixed cc).

Definition move_nodes4 (is_membership_fixed : list bool) (cc : consider_comms_t)
    (renumber_fixed_nodes : bool) : M (Optimiser R * P) float :=
  fun st =>
    let initial_quality := quality st.2 in
    match move_nodes4_pass is_membership_fixed cc st with
    | None => Undefined
    | Some (o, p, _) => Ret (quality p - initial_quality)%float (o, p)
    end.

(** [move_nodes(partition, consider_comms)] (lines 186-190) *)
Definition move_nodes2 (cc : consider_comms_t) : M (Optimiser R * P) float :=
  fun st => move_nodes4 (replicate (vcount st.2) false) cc true st.

(** The 5-argument form (lines 279-283). *)
Definition move_nodes5 (is_membership_fixed : list bool) (cc : consider_comms_t)
    (renumber_fixed_nodes : bool) (max_comm_size : nat) : M (Optimiser R * P) float :=
  move_nodes4 is_membership_fixed cc renumber_fixed_nodes.

(** ** [merge_nodes] (lines 286-377) *)

(** The scoring of vertex [i]: the neighbour communities, then every
    community when [this->consider_comms == ALL_COMMS], then the empty one. *)
Definition merge_nodes_scan (o : Optimiser R) (p : P) (i : nat) : scan :=
  let comm_from := membership_at p i in
  let s := consider_neigh_comms p i comm_from (scan_init comm_from) in
  let s := if decide (consider_comms o = ALL_COMMS)
           then consider_all_comms p i comm_from s else s in
  consider_empty o p i s.

Definition merge_nodes_visit (o : Optimiser R) (is_membership_fixed : list bool)
    (st : P * bool) (i : nat) : option (P * bool) :=
  match is_fixed_at is_membership_fixed i with
  | None => None
  | Some true => Some st
  | Some false =>
      let s := merge_nodes_scan o st.1 i in
      if negb (bool_decide (comm_to s = membership_at st.1 i)) && (0 <? max_q_gain s)%float
      then Some (move_node st.1 i (comm_to s), true)
      else Some st
  end.

Definition merge_nodes_pass (is_membership_fixed : list bool)
  : Optimiser R * P -> option (Optimiser R * P * bool) :=
  shuffled_pass (fun o => merge_nodes_visit o is_membership_fixed).

Definition merge_nodes_loop (fuel : nat) (is_membership_fixed : list bool)
  : M (Optimiser R * P) unit :=
  while_improvement InMergeNodes (merge_nodes_pass is_membership_fixed) fuel.

Definition merge_nodes (fuel : nat) (is_membership_fixed : list bool)
  : M (Optimiser R * P) float :=
  fun st =>
    let initial_quality := quality st.2 in
    (do _ <- merge_nodes_loop fuel is_membership_fixed;
     fun st' => Ret (quality st'.2 - initial_quality)%float st') st.

(** ** [merge_nodes] with [consider_comms] (lines 394-487) *)

(** The body of its [for] loop (lines 410-482) is that of the 4-argument
    [move_nodes] (lines 202-273), scoring included (lines 421-475 repeat
    lines 213-267), with [improvement = true] after the move. *)
Definition merge_nodes4_visit (o : Optimiser R) (is_membership_fixed : list bool)
    (cc : consider_comms_t) (st : P * bool) (i : nat) : option (P * bool) :=
  match is_fixed_at is_membership_fixed i with
  | None => None
  | Some true => Some st
  | Some false =>
      let s := move_nodes4_scan o cc st.1 i in
      if negb (bool_decide (comm_to s = membership_at st.1 i)) && (0 <? max_q_gain s)%float
      then Some (move_node st.1 i (comm_to s), true)
      else Some st
  end.

Definition merge_nodes4_pass (is_membership_fixed : list bool) (cc : consider_comms_t)
  : Optimiser R * P -> option (Optimiser R * P * bool) :=
  shuffled_pass (fun o => merge_nodes4_visit o is_membership_fixed cc).

Definition merge_nodes4_loop (fuel : nat) (is_membership_fixed : list bool)
    (cc : consider_comms_t) : M (Optimiser R * P) unit :=
  while_improvement InMergeNodes (merge_nodes4_pass is_membership_fixed cc) fuel.

Definition merge_nodes4 (fuel : nat) (is_membership_fixed : list bool)
    (cc : consider_comms_t) (renumber_fixed_nodes : bool) : M (Optimiser R * P) float :=
  fun st =>
    let initial_quality := quality st.2 in
    (do _ <- merge_nodes4_loop fuel is_membership_fixed cc;
     fun st' => Ret (quality st'.2 - initial_quality)%float st') st.

(** [merge_nodes(partition, consider_comms)] (lines 388-392) *)
Definition merge_nodes2 (fuel : nat) (cc : consider_comms_t) : M (Optimiser R * P) float :=
  fun st => merge_nodes4 fuel (replicate (vcount st.2) false) cc true st.

(** The 5-argument form (lines 489-493). *)
Definition merge_nodes5 (fuel : nat) (is_membership_fixed : list bool)
    (cc : consider_comms_t) (renumber_fixed_nodes : bool) (max_comm_size : nat)
  : M (Optimiser R * P) float :=
  merge_nodes4 fuel is_membership_fixed cc renumber_fixed_nodes.

(** [void move_nodes(partition)] (lines 381-385) *)
Definition move_nodes1 (fuel : nat) : M (Optimiser R * P) unit :=
  fun st => move_nodes_impl fuel (replicate (vcount st.2) false) st.

(** ** The store of partition objects *)

(** [heap] holds the partition objects, a pointer being an index into it;
    [opt] is the optimiser [*this]. [history] is a ghost field: the value of
    [was_improvement] after each optimisation round, oldest first. *)
Record world : Type := mkWorld {
  heap : list P;
  opt : Optimiser R;
  history : list bool
}.

(** Run a routine on the object [ptr] points to, in place. *)
Definition on_partition {A} (ptr : nat) (m : M (Optimiser R * P) A) : M world A :=
  fun w =>
    match heap w !! ptr with
    | None => Undefined
    | Some p =>
        match m (opt w, p) with
        | Ret a st => Ret a (mkWorld (<[ptr:=st.2]> (heap w)) st.1 (history w))
        | Throw msg st => Throw msg (mkWorld (<[ptr:=st.2]> (heap w)) st.1 (history w))
        | Undefined => Undefined
        | Diverge l st => Diverge l (mkWorld (<[ptr:=st.2]> (heap w)) st.1 (history w))
        end
    end.

(** [*ptr], read only. *)
Definition deref (ptr : nat) : M world P :=
  fun w => match heap w !! ptr with
           | None => Undefined
           | Some p => Ret p w
           end.

(** A new object; the pointer to it is returned. *)
Definition alloc (p : P) : M world nat :=
  fun w => Ret (length (heap w)) (mkWorld (heap w ++ [p]) (opt w) (history w)).

Definition log_round (was_improvement : bool) : M world unit :=
  fun w => Ret tt (mkWorld (heap w) (opt w) (history w ++ [was_improvement])).

(** ** [optimise_partition] (lines 90-118) *)

(** The [if / else if] on [this->optimise_routine] that sets
    [was_improvement]. *)
Definition optimise_round (fuel : nat) (partition : nat) (is_membership_fixed : list bool)
  : M world bool :=
  fun w =>
    (do was_improvement <-
       match optimise_routine (opt w) with
       | MOVE_NODES =>
           do q <- on_partition partition (move_nodes fuel is_membership_fixed);
           ret (0 <? q)%float
       | MERGE_NODES =>
           do q <- on_partition partition (merge_nodes fuel is_membership_fixed);
           ret (0 <? q)%float
       end;
     do _ <- log_round was_improvement;
     ret was_improvement) w.

(** [partition->aggregate(this, this->refine_routine, this->refine_partition,
    is_membership_fixed)]: the pointer to the new object. *)
Definition aggregate_partition (partition : nat) (is_membership_fixed : list bool)
  : M world nat :=
  do p <- deref partition;
  fun w =>
    let '(p', o') := aggregate p (opt w) (refine_routine (opt w))
                       (refine_partition (opt w)) is_membership_fixed in
    alloc p' (mkWorld (heap w) o' (history w)).

Fixpoint optimise_partition_loop (fuel fuel_in : nat) (n_iterations : Z)
    (is_membership_fixed : list bool) (partition : nat) (was_improvement : bool) (i : Z)
  : M world unit :=
  if was_improvement && ((n_iterations <? 0)%Z || (i <? n_iterations)%Z)
  then
    match fuel with
    | O => fun w => Diverge InDriver w
    | S fuel' =>
        do was_improvement <- optimise_round fuel_in partition is_membership_fixed;
        do partition <- (if was_improvement
                         then aggregate_partition partition is_membership_fixed
                         else ret partition);
        optimise_partition_loop fuel' fuel_in n_iterations is_membership_fixed
          partition was_improvement (i + 1)%Z
    end
  else ret tt.

Definition optimise_partition (fuel : nat) (partition : nat) (n_iterations : Z)
    (is_membership_fixed : list bool) : M world unit :=
  do _ <- (fun w => Ret tt (mkWorld (heap w) (rng_init (opt w)) (history w)));
  do was_improvement <- optimise_round fuel partition is_membership_fixed;
  do partition <- (if was_improvement
                   then aggregate_partition partition is_membership_fixed
                   else ret partition);
  optimise_partition_loop fuel fuel n_iterations is_membership_fixed
    partition was_improvement 1%Z.

(** [optimise_partition(partition, n_iterations)] (lines 84-88) *)
Definition optimise_partition2 (fuel : nat) (partition : nat) (n_iterations : Z)
  : M world unit :=
  do p <- deref partition;
  optimise_partition fuel partition n_iterations (replicate (vcount p) false).

(** ** [optimise_partition_hierarchical] (lines 120-175) *)

(** The store together with the two vectors the caller passes by reference. *)
Record hstate : Type := mkHstate {
  hw : world;
  partitions : list nat;
  hierarchy : list nat
}.

Definition in_world {A} (m : M world A) : M hstate A :=
  fun s =>
    match m (hw s) with
    | Ret a w => Ret a (mkHstate w (partitions s) (hierarchy s))
    | Throw msg w => Throw msg (mkHstate w (partitions s) (hierarchy s))
    | Undefined => Undefined
    | Diverge l w => Diverge l (mkHstate w (partitions s) (hierarchy s))
    end.

(** [hierarchy.clear(); hierarchy.push_back(partition->copy());] *)
Definition hierarchy_reset (partition : nat) : M hstate unit :=
  do p <- in_world (deref partition);
  do c <- in_world (alloc (copy p));
  fun s => Ret tt (mkHstate (hw s) (partitions s) [c]).

(** [partitions[0] = new_partition;
    hierarchy.push_back(new_partition->copy_from_graph(partition->g));] *)
Definition hierarchy_push (new_partition partition : nat) : M hstate unit :=
  do pn <- in_world (deref new_partition);
  do po <- in_world (deref partition);
  do c <- in_world (alloc (copy_from_graph pn (g po)));
  fun s => Ret tt (mkHstate (hw s) (<[0:=new_partition]> (partitions s)) (hierarchy s ++ [c])).

(** One optimisation round and, when it improved, the aggregation block;
    the result is the local [partition] and [was_improvement]. *)
Definition hierarchical_round (fuel : nat) (partition : nat)
    (is_membership_fixed : list bool) : M hstate (nat * bool) :=
  do was_improvement <- in_world (optimise_round fuel partition is_membership_fixed);
  if was_improvement : bool
  then
    do new_partition <- in_world (aggregate_partition partition is_membership_fixed);
    do _ <- hierarchy_push new_partition partition;
    ret (new_partition, true)
  else ret (partition, false).

Fixpoint hierarchical_loop (fuel fuel_in : nat) (is_membership_fixed : list bool)
    (partition : nat) (was_improvement : bool) : M hstate unit :=
  if was_improvement
  then
    match fuel with
    | O => fun s => Diverge InDriver s
    | S fuel' =>
        do r <- hierarchical_round fuel_in partition is_membership_fixed;
        hierarchical_loop fuel' fuel_in is_membership_fixed r.1 r.2
    end
  else ret tt.

(** [total_quality = 0.0; if (!hierarchy.empty()) total_quality =
    hierarchy.back()->quality(); return total_quality;] *)
Definition hierarchy_quality : M hstate float :=
  fun s =>
    match last (hierarchy s) with
    | None => Ret 0%float s
    | Some back => (do p <- in_world (deref back); ret (quality p)) s
    end.

Definition size_error : string := "Partitions and layer_weights should be of same size.".

Definition optimise_partition_hierarchical (fuel : nat) (layer_weights : list float)
    (is_membership_fixed : list bool) : M hstate float :=
  fun s =>
    if negb (length (partitions s) =? length layer_weights)
    then Throw size_error s
    else
      match partitions s !! 0 with
      | None => Undefined
      | Some partition =>
          (do _ <- in_world (fun w => Ret tt (mkWorld (heap w) (rng_init (opt w)) (history w)));
           do _ <- hierarchy_reset partition;
           do r <- hierarchical_round fuel partition is_membership_fixed;
           do _ <- hierarchical_loop fuel fuel is_membership_fixed r.1 r.2;
           hierarchy_quality) s
      end.

End Routines.

Arguments world : clear implicits.
Arguments hstate : clear implicits.

(** ** A concrete generator *)

(** Modelled from the spec: [a small deterministic generator (e.g., a
    well-known 64-bit PRNG)]. The state is a 64-bit word stepped by a linear
    congruence; a shuffle draws the next element of the output from the
    elements that are left. *)
Definition lcg_next (r : Z) : Z :=
  ((r * 6364136223846793005 + 1442695040888963407) mod 2 ^ 64)%Z.

Fixpoint lcg_shuffle (n : nat) (r : Z) (l : list nat) : list nat * Z :=
  match n with
  | O => (l, r)
  | S n' =>
      let k := Z.to_nat (r mod Z.of_nat (length l))%Z in
      match l !! k with
      | None => (l, r)
      | Some x =>
          let '(t, r') := lcg_shuffle n' (lcg_next r) (delete k l) in
          (x :: t, r')
      end
  end.

#[global] Instance lcg_rng : Rng Z := {
  rng_seeded seed := (seed mod 2 ^ 64)%Z;
  rng_shuffled r l := lcg_shuffle (length l) r l
}.

(** ** A concrete partition class: CPM over a weighted edge list *)

(** Modelled from the spec: the bodies of CPMVertexPartition are not in the
    sources (only its header is). The graph is a vertex count, the node
    weights [nw(v)] and the weighted edges; [csize(c)] is [the sum of nw(v)
    for v with membership[v]=c]; the quality is [Q = sum over c of
    (w_in(c) - gamma * n(c)^2)]; [move_node] rewrites the membership entry
    and [creates a new community slot] when the target is [C]; [diff_move]
    is [the signed change in Q that moving v would produce]; [aggregate]
    builds the quotient graph [whose vertices are the communities], every
    super-node in a community of its own. *)
Record cpm_graph : Type := mkCpmGraph {
  cg_vcount : nat;
  cg_node_size : list nat;
  cg_edges : list (nat * nat * float)
}.

Record cpm_partition : Type := mkCpm {
  cpm_g : cpm_graph;
  cpm_gamma : float;
  cpm_membership : list nat;
  cpm_n_communities : nat
}.

Definition float_of_nat (n : nat) : float :=
  PrimFloat.of_uint63 (Uint63.of_Z (Z.of_nat n)).

Definition cpm_comm_of (p : cpm_partition) (v : nat) : nat :=
  default 0 (cpm_membership p !! v).

Definition cpm_csize (p : cpm_partition) (c : nat) : nat :=
  fold_left
    (fun acc v => if decide (cpm_comm_of p v = c)
                  then acc + default 0 (cg_node_size (cpm_g p) !! v) else acc)
    (range (cg_vcount (cpm_g p))) 0.

Definition cpm_weight_in (p : cpm_partition) (c : nat) : float :=
  fold_left
    (fun acc e => if decide (cpm_comm_of p e.1.1 = c ∧ cpm_comm_of p e.1.2 = c)
                  then (acc + e.2)%float else acc)
    (cg_edges (cpm_g p)) 0%float.

Definition cpm_quality (p : cpm_partition) : float :=
  fold_left
    (fun q c =>
       let n := float_of_nat (cpm_csize p c) in
       (q + (cpm_weight_in p c - cpm_gamma p * (n * n)))%float)
    (range (cpm_n_communities p)) 0%float.

Definition cpm_move_node (p : cpm_partition) (v c : nat) : cpm_partition :=
  mkCpm (cpm_g p) (cpm_gamma p) (<[v:=c]> (cpm_membership p))
    (if decide (c = cpm_n_communities p)
     then S (cpm_n_communities p) else cpm_n_communities p).

Definition cpm_diff_move (p : cpm_partition) (v c : nat) : float :=
  (cpm_quality (cpm_move_node p v c) - cpm_quality p)%float.

(** Add weight [w] to the entry of community [c], appending it when new. *)
Fixpoint cpm_add_weight (c : nat) (w : float) (acc : list (nat * float))
  : list (nat * float) :=
  match acc with
  | [] => [(c, w)]
  | (c', w') :: acc' =>
      if decide (c' = c) then (c', (w' + w)%float) :: acc'
      else (c', w') :: cpm_add_weight c w acc'
  end.

Definition cpm_get_neigh_comm_weights (p : cpm_partition) (v comm_from : nat)
  : list nat * list float :=
  let acc :=
    fold_left
      (fun acc e =>
         let acc := if decide (e.1.1 = v)
                    then cpm_add_weight (cpm_comm_of p e.1.2) e.2 acc else acc in
         if decide (e.1.2 = v)
         then cpm_add_weight (cpm_comm_of p e.1.1) e.2 acc else acc)
      (cg_edges (cpm_g p)) [] in
  (acc.*1, acc.*2).

Definition cpm_aggregate (p : cpm_partition) : cpm_partition :=
  let C := cpm_n_communities p in
  mkCpm
    (mkCpmGraph C (map (cpm_csize p) (range C))
       (map (fun e => (cpm_comm_of p e.1.1, cpm_comm_of p e.1.2, e.2))
          (cg_edges (cpm_g p))))
    (cpm_gamma p) (range C) C.

#[global] Instance CPMVertexPartition {R : Type}
  : MutableVertexPartition R cpm_graph cpm_partition := {
  g := cpm_g;
  g_vcount := cg_vcount;
  membership := cpm_membership;
  n_communities := cpm_n_communities;
  csize := cpm_csize;
  quality := cpm_quality;
  diff_move := cpm_diff_move;
  move_node := cpm_move_node;
  get_neigh_comm_weights := cpm_get_neigh_comm_weights;
  aggregate p o _ _ _ := (cpm_aggregate p, o);
  copy p := p;
  copy_from_graph p g' := mkCpm g' (cpm_gamma p) (cpm_membership p) (cpm_n_communities p)
}.

(** Three vertices on a path, weights 5 and 6, every vertex on its own. *)
Definition path3 : cpm_partition :=
  mkCpm (mkCpmGraph 3 [1; 1; 1] [(0, 1, 5%float); (1, 2, 6%float)]) 1%float [0; 1; 2] 3.

(** Five vertices, three communities in use. *)
Definition five : cpm_partition :=
  mkCpm
    (mkCpmGraph 5 [1; 1; 1; 1; 1]
       [(0, 2, 5%float); (1, 3, 7%float); (2, 4, 7%float); (3, 4, 5%float); (1, 2, 2%float)])
    3%float [2; 0; 0; 4; 4] 5.

(** The empty graph. *)
Definition empty_cpm : cpm_partition := mkCpm (mkCpmGraph 0 [] []) 1%float [] 0.

Definition default_optimiser (seed : Z) : Optimiser Z :=
  mkOptimiser ALL_NEIGH_COMMS ALL_NEIGH_COMMS MOVE_NODES MERGE_NODES false false 0 seed 0%Z.

(** * Predicates used in the statements *)

(** ** On outcomes and monadic code *)

(** [m] keeps [Inv]: from a state in [Inv], the state of every outcome
    (return, exception or exhausted loop) is in [Inv]. *)
Definition preserves {S A} (Inv : S -> Prop) (m : M S A) : Prop :=
  forall s, Inv s -> forall s', state_of (m s) = Some s' -> Inv s'.

(** The ways a call can end other than by returning. *)
Inductive event : Type :=
| EThrow (msg : string)
| EUndefined
| EDiverge (l : loop_tag).

Definition event_of {A S} (r : outcome A S) : option event :=
  match r with
  | Ret _ _ => None
  | Throw msg _ => Some (EThrow msg)
  | Undefined => Some EUndefined
  | Diverge l _ => Some (EDiverge l)
  end.

(** [m] never ends in an event of the class [E]. *)
Definition avoids {S A} (E : event -> Prop) (m : M S A) : Prop :=
  forall s e, event_of (m s) = Some e -> ~ E e.

Definition is_throw (e : event) : Prop := exists msg, e = EThrow msg.

(** ** On the rounds of the driver *)

(** The flags of a run of rounds: every round but the last improved. *)
Definition rounds_shape (h : list bool) : Prop :=
  exists k, h = replicate k true \/ h = replicate k true ++ [false].

Definition is_ret {A S} (r : outcome A S) : Prop :=
  match r with Ret _ _ => True | _ => False end.

(** What [r], the outcome of a run started in [w] with [was_improvement = b]
    and counter [i], says about the rounds run: [h] lists their flags. *)
Definition rounds_run {R P A} (n i : Z) (b : bool) (w : world R P)
    (r : outcome A (world R P)) : Prop :=
  forall w', state_of r = Some w' ->
    exists h,
      history w' = history w ++ h /\
      (b = false -> h = []) /\
      rounds_shape h /\
      ((0 <= n)%Z -> (Z.of_nat (length h) <= Z.max 0 (n - i))%Z) /\
      (is_ret r -> b = true ->
         last h = Some false \/
         ((0 <= n)%Z /\ Z.of_nat (length h) = Z.max 0 (n - i))).

(** The same for a whole call of the driver: at most [max 1 n] rounds. *)
Definition driver_rounds {R P A} (n : Z) (w : world R P)
    (r : outcome A (world R P)) : Prop :=
  forall w', state_of r = Some w' ->
    exists h,
      history w' = history w ++ h /\
      rounds_shape h /\
      ((0 <= n)%Z -> (Z.of_nat (length h) <= Z.max 1 n)%Z) /\
      (is_ret r ->
         last h = Some false \/
         ((0 <= n)%Z /\ Z.of_nat (length h) = Z.max 1 n)).

(** ** On loops *)

(** Passes are run from [st] until one makes no move, which leaves [st']. *)
Inductive passes_until_clean {St : Type} (pass : St -> option (St * bool))
  : St -> St -> Prop :=
| clean_pass (st st' : St) :
    pass st = Some (st', false) -> passes_until_clean pass st st'
| moved_pass (st st1 st' : St) :
    pass st = Some (st1, true) -> passes_until_clean pass st1 st' ->
    passes_until_clean pass st st'.

(** ** On partitions, visits and the store *)

Section Predicates.
Context {R G P : Type} `{MutableVertexPartition R G P}.

(** Every loop body of the source has this shape: it is undefined exactly
    when [is_membership_fixed] has no entry for the vertex; it leaves the
    state alone when the vertex is fixed; and otherwise it leaves the state
    alone or moves the visited vertex. *)
Definition visit_shape (is_membership_fixed : list bool)
    (f : P * bool -> nat -> option (P * bool)) : Prop :=
  forall st i,
    match is_fixed_at is_membership_fixed i with
    | None => f st i = None
    | Some true => f st i = Some st
    | Some false => f st i = Some st \/ exists c, f st i = Some (move_node st.1 i c, true)
    end.

(** The entry of [v] is what it was at the start. *)
Definition entry_is (v : nat) (c : option nat) (st : Optimiser R * P) : Prop :=
  membership st.2 !! v = c.

(** The object at [ptr] exists and satisfies [Q]. *)
Definition object_is (ptr : nat) (Q : P -> Prop) (w : world R P) : Prop :=
  exists p, heap w !! ptr = Some p /\ Q p.

(** The object [h0] is [c0] and heads the hierarchy. *)
Definition snapshot_kept (h0 : nat) (c0 : P) (s : hstate R P) : Prop :=
  heap (hw s) !! h0 = Some c0 /\ exists rest, hierarchy s = h0 :: rest.

Definition holds_at (h0 : nat) (c0 : P) (w : world R P) : Prop :=
  heap w !! h0 = Some c0.

(** The candidate communities of vertex [i], as the code builds them: the
    list [get_neigh_comm_weights] fills for [ALL_NEIGH_COMMS]; every community
    number below [n_communities()] but the vertex's own for [ALL_COMMS];
    none for the two random modes; then the number [n_communities()] of a
    new community when [consider_empty_community] is set and there are fewer
    communities than vertices. *)
Definition existing_candidates (cc : consider_comms_t) (p : P) (i : nat) : list nat :=
  match cc with
  | ALL_NEIGH_COMMS => (get_neigh_comm_weights p i (membership_at p i)).1
  | ALL_COMMS => filter (fun c => c ≠ membership_at p i) (range (n_communities p))
  | RAND_COMM | RAND_NEIGH_COMM => []
  end.

Definition empty_candidate (o : Optimiser R) (p : P) : list nat :=
  if consider_empty_community o && (n_communities p <? vcount p)
  then [n_communities p] else [].

Definition candidate_comms (o : Optimiser R) (cc : consider_comms_t) (p : P) (i : nat)
  : list nat :=
  existing_candidates cc p i ++ empty_candidate o p.

End Predicates.

(** ** On the CPM example *)

(** The [for] loop of the 4-argument [move_nodes] over a given visit order,
    for the CPM class on five vertices none of which is fixed,
    [ALL_NEIGH_COMMS] and no empty community. *)
Definition pass_on (order : list nat) (p : cpm_partition) : option (cpm_partition * bool) :=
  for_each_node
    (move_nodes4_visit (default_optimiser 0) (replicate 5 false) ALL_NEIGH_COMMS)
    order (p, false).

(** The pass over [order] moves a vertex of [p]. *)
Definition pass_moves (order : list nat) (p : cpm_partition) : bool :=
  match pass_on order p with
  | Some (_, improvement) => improvement
  | None => false
  end.

(** The pass over [order] from [five] moves a vertex, and so does a further
    pass from the partition it leaves, whatever the order of that one. *)
Definition one_pass_is_not_enough (order : list nat) : bool :=
  match pass_on order five with
  | Some (p1, b1) => b1 && forallb (fun order2 => pass_moves order2 p1) (permutations (range 5))
  | None => false
  end.

(** ** On the choice a scan makes *)

Section ScanPredicates.
Context {R G P : Type} `{MutableVertexPartition R G P}.

(** What the locals of a loop body hold after scoring, for vertex [i] of
    [p] whose community is [comm_from]: no community scored has a gain above
    [max_q_gain]; and either nothing was chosen ([comm_to] is still
    [comm_from] and [max_q_gain] is still 0), or [max_q_gain] is positive and
    is the gain of [comm_to], which was scored, every community scored before
    its first scoring having a gain that is not even equal to it. *)
Definition scan_ok (p : P) (i comm_from : nat) (s : scan) : Prop :=
  (forall c, c ∈ scored s -> (max_q_gain s <? diff_move p i c)%float = false) /\
  ((comm_to s = comm_from /\ max_q_gain s = 0%float) \/
   ((0 <? max_q_gain s)%float = true /\
    max_q_gain s = diff_move p i (comm_to s) /\
    exists l1 l2,
      scored s = l1 ++ comm_to s :: l2 /\
      forall c, c ∈ l1 -> (max_q_gain s <=? diff_move p i c)%float = false)).

End ScanPredicates.

(** ** On the moves a loop body makes *)

Section MovePredicates.
Context {R G P : Type} `{MutableVertexPartition R G P}.

(** The loop body [f], whose scoring is [scan_of], is undefined exactly when
    [is_membership_fixed] has no entry for the vertex. Otherwise it leaves
    the state alone or moves the visited vertex, not a fixed one, to a
    community other than its own that was scored, whose gain is strictly
    positive and which no scored community beats. *)
Definition moves_to_best (is_membership_fixed : list bool)
    (scan_of : P -> nat -> scan) (f : P * bool -> nat -> option (P * bool)) : Prop :=
  forall p b i,
    match is_fixed_at is_membership_fixed i with
    | None => f (p, b) i = None
    | Some fixed =>
        f (p, b) i = Some (p, b) \/
        (fixed = false /\
         exists c,
           f (p, b) i = Some (move_node p i c, true) /\
           c ≠ membership_at p i /\
           c ∈ scored (scan_of p i) /\
           (0 <? diff_move p i c)%float = true /\
           forall c', c' ∈ scored (scan_of p i) ->
                      (diff_move p i c <? diff_move p i c')%float = false)
    end.

End MovePredicates.

(** ** On what the drivers write *)

(** The routine [this->optimise_routine] selects. *)
Definition round_routine {R G P} `{Rng R} `{MutableVertexPartition R G P}
    (o : Optimiser R) (fuel : nat) (is_membership_fixed : list bool)
  : M (Optimiser R * P) float :=
  match optimise_routine o with
  | MOVE_NODES => move_nodes fuel is_membership_fixed
  | MERGE_NODES => merge_nodes fuel is_membership_fixed
  end.

(** The number of rounds that improved, among the rounds of flags [h]. *)
Definition improvements (h : list bool) : nat :=
  length (filter (fun b : bool => b = true) h).

(** ** On what a hierarchical call reads *)

(** Two outcomes of the same kind, with the same value, message or loop, and
    states related by [rel]. *)
Definition same_outcome {A St} (rel : St -> St -> Prop) (r1 r2 : outcome A St) : Prop :=
  match r1, r2 with
  | Ret a1 s1, Ret a2 s2 => a1 = a2 /\ rel s1 s2
  | Throw msg1 s1, Throw msg2 s2 => msg1 = msg2 /\ rel s1 s2
  | Undefined, Undefined => True
  | Diverge l1 s1, Diverge l2 s2 => l1 = l2 /\ rel s1 s2
  | _, _ => False
  end.

(** The same store, the same hierarchy and the same [partitions[0]]. *)
Definition same_first_layer {R P} (s1 s2 : hstate R P) : Prop :=
  hw s1 = hw s2 /\ hierarchy s1 = hierarchy s2 /\ partitions s1 !! 0 = partitions s2 !! 0.

(** A routine whose outcome depends on the store, the hierarchy and
    [partitions[0]] only. *)
Definition reads_first_layer {R P A} (m : M (hstate R P) A) : Prop :=
  forall s1 s2, same_first_layer s1 s2 -> same_outcome same_first_layer (m s1) (m s2).

(** * Properties *)

(** ** Doubles *)

(** [x - x > 0] is false for every double, NaN and the infinities included. *)
Lemma sub_diag_not_pos (x : float) : (0 <? x - x)%float = false.
Proof.
  rewrite ltb_spec, sub_spec.
  change (Prim2SF 0%float) with (S754_zero false).
  destruct (Prim2SF x) as [s|s| |s m e]; try (destruct s; reflexivity); try reflexivity.
  unfold SF64sub, SFsub. rewrite Z.sub_diag. reflexivity.
Qed.

(** ** The concrete generator and partition class obey the laws *)

Lemma lcg_shuffle_perm (n : nat) : forall (r : Z) (l : list nat),
  (lcg_shuffle n r l).1 ≡ₚ l.
Proof.
  induction n as [|n IH]; intros r l; simpl; [done|].
  destruct (l !! _) as [x|] eqn:Hx; [|done].
  specialize (IH (lcg_next r) (delete (Z.to_nat (r mod Z.of_nat (length l))%Z) l)).
  destruct (lcg_shuffle n _ _) as [t r']. simpl in *.
  rewrite IH. symmetry. by apply delete_Permutation.
Qed.

#[global] Instance lcg_rng_laws : RngLaws Z.
Proof. constructor. intros r l. apply lcg_shuffle_perm. Qed.

#[global] Instance cpm_partition_laws {R : Type} : PartitionLaws R cpm_graph cpm_partition.
Proof. constructor; reflexivity. Qed.

(** ** What a visit does to the membership vector *)

Section Visits.
Context {R G P : Type} `{Rng R} `{MutableVertexPartition R G P}.
Context `{!PartitionLaws R G P}.

Lemma move_nodes_impl_visit_shape o fx : visit_shape fx (move_nodes_impl_visit o fx).
Proof.
  intros st i. unfold move_nodes_impl_visit.
  destruct (is_fixed_at fx i) as [[|]|]; [done| |done].
  case_decide; [by left|]. right. eauto.
Qed.

Lemma move_nodes4_visit_shape o fx cc : visit_shape fx (move_nodes4_visit o fx cc).
Proof.
  intros st i. unfold move_nodes4_visit.
  destruct (is_fixed_at fx i) as [[|]|]; [done| |done].
  destruct (_ && _); [|by left]. right. eauto.
Qed.

Lemma merge_nodes_visit_shape o fx : visit_shape fx (merge_nodes_visit o fx).
Proof.
  intros st i. unfold merge_nodes_visit.
  destruct (is_fixed_at fx i) as [[|]|]; [done| |done].
  destruct (_ && _); [|by left]. right. eauto.
Qed.

Lemma merge_nodes4_visit_shape o fx cc : visit_shape fx (merge_nodes4_visit o fx cc).
Proof.
  intros st i. unfold merge_nodes4_visit.
  destruct (is_fixed_at fx i) as [[|]|]; [done| |done].
  destruct (_ && _); [|by left]. right. eauto.
Qed.

(** A visit of [i] changes the entry of no vertex but [i], and not that of
    [i] either when [i] is fixed. *)
Lemma visit_keeps fx f st st' i (v : nat) :
  visit_shape fx f ->
  i ≠ v \/ is_fixed_at fx i = Some true ->
  f st i = Some st' ->
  membership st'.1 !! v = membership st.1 !! v.
Proof.
  intros Hf Hv Hst. specialize (Hf st i).
  destruct (is_fixed_at fx i) as [[|]|]; [congruence| |congruence].
  destruct Hf as [Hf|[c Hf]]; [congruence|].
  destruct Hv as [Hv|Hv]; [|done].
  rewrite Hf in Hst. injection Hst as <-. simpl.
  rewrite move_node_membership. by apply list_lookup_insert_ne.
Qed.

Lemma visits_keep fx f (l : list nat) (v : nat) :
  visit_shape fx f ->
  (forall i, i ∈ l -> i ≠ v \/ is_fixed_at fx i = Some true) ->
  forall st st', for_each_node f l st = Some st' ->
                 membership st'.1 !! v = membership st.1 !! v.
Proof.
  intros Hf. induction l as [|i l IH]; intros Hl st st'; simpl.
  - by intros [= <-].
  - destruct (f st i) as [st1|] eqn:Hst1; [|done]. intros Hrest.
    rewrite (IH (fun j Hj => Hl j (proj2 (elem_of_cons l j i) (or_intror Hj))) _ _ Hrest).
    apply (visit_keeps fx f st st1 i); [done| |done]. apply Hl. by left.
Qed.

Lemma visit_graph fx f st st' i :
  visit_shape fx f -> f st i = Some st' -> g st'.1 = g st.1.
Proof.
  intros Hf Hst. specialize (Hf st i).
  destruct (is_fixed_at fx i) as [[|]|]; [congruence| |congruence].
  destruct Hf as [Hf|[c Hf]]; [congruence|].
  rewrite Hf in Hst. injection Hst as <-. simpl. apply move_node_graph.
Qed.

Lemma is_fixed_at_true fx (v : nat) : fx !! v = Some true -> is_fixed_at fx v = Some true.
Proof. done. Qed.

End Visits.

(** ** Invariants of monadic code *)

Lemma preserves_ret {S A} (Inv : S -> Prop) (a : A) : preserves Inv (ret a).
Proof. intros s Hs s' [= <-]. done. Qed.

Lemma preserves_bind {S A B} (Inv : S -> Prop) (m : M S A) (k : A -> M S B) :
  preserves Inv m -> (forall a, preserves Inv (k a)) -> preserves Inv (bind m k).
Proof.
  intros Hm Hk s Hs s'. unfold bind.
  specialize (Hm s Hs). destruct (m s) as [a s1|msg s1| |l s1]; simpl in *.
  - apply (Hk a). by apply Hm.
  - intros [= <-]. by apply Hm.
  - done.
  - intros [= <-]. by apply Hm.
Qed.

Lemma preserves_while {S} (Inv : S -> Prop) l (pass : S -> option (S * bool)) fuel :
  (forall st st1 b, Inv st -> pass st = Some (st1, b) -> Inv st1) ->
  preserves Inv (while_improvement l pass fuel).
Proof.
  intros Hpass. induction fuel as [|fuel IH]; intros st Hst st'; simpl.
  - intros [= <-]. done.
  - destruct (pass st) as [[st1 [|]]|] eqn:Hp; simpl.
    + apply IH. by eapply Hpass.
    + intros [= <-]. by eapply Hpass.
    + done.
Qed.

Section Fixed.
Context {R G P : Type} `{Rng R} `{MutableVertexPartition R G P}.
Context `{!PartitionLaws R G P}.

Lemma shuffled_pass_keeps fx visit (v : nat) (st st1 : Optimiser R * P) (b : bool) :
  (forall o, visit_shape fx (visit o)) ->
  fx !! v = Some true ->
  shuffled_pass visit st = Some (st1, b) ->
  membership st1.2 !! v = membership st.2 !! v.
Proof.
  intros Hvisit Hv. unfold shuffled_pass.
  destruct (rng_shuffle _ _) as [nodes o].
  destruct (for_each_node _ _ _) as [[p b']|] eqn:Hfold; [|done].
  intros [= <- <-]. simpl.
  apply (visits_keep fx (visit o) nodes v (Hvisit o)) in Hfold; [done|].
  intros i _. destruct (decide (i = v)) as [->|]; [right|by left].
  by apply is_fixed_at_true.
Qed.

Lemma quality_delta_preserves (Inv : Optimiser R * P -> Prop)
    (m : M (Optimiser R * P) unit) (q0 : float) :
  preserves Inv m ->
  preserves Inv (do _ <- m; fun st' => Ret (quality st'.2 - q0)%float st').
Proof.
  intros Hm. apply preserves_bind; [done|]. intros _ s Hs s' [= <-]. done.
Qed.

Lemma move_nodes_keeps fuel fx (v : nat) c :
  fx !! v = Some true -> preserves (entry_is v c) (move_nodes fuel fx).
Proof.
  intros Hv st Hst st'. unfold move_nodes.
  apply quality_delta_preserves; [|done].
  apply preserves_while. intros s s1 b Hs Hpass. unfold entry_is in *.
  rewrite <- Hs.
  apply (shuffled_pass_keeps fx (fun o => move_nodes_impl_visit o fx) v s s1 b); [|done|exact Hpass].
  intros o. apply move_nodes_impl_visit_shape.
Qed.

Lemma merge_nodes_keeps fuel fx (v : nat) c :
  fx !! v = Some true -> preserves (entry_is v c) (merge_nodes fuel fx).
Proof.
  intros Hv st Hst st'. unfold merge_nodes.
  apply quality_delta_preserves; [|done].
  apply preserves_while. intros s s1 b Hs Hpass. unfold entry_is in *.
  rewrite <- Hs.
  apply (shuffled_pass_keeps fx (fun o => merge_nodes_visit o fx) v s s1 b); [|done|exact Hpass].
  intros o. apply merge_nodes_visit_shape.
Qed.

Lemma merge_nodes4_keeps fuel fx cc rfn (v : nat) c :
  fx !! v = Some true -> preserves (entry_is v c) (merge_nodes4 fuel fx cc rfn).
Proof.
  intros Hv st Hst st'. unfold merge_nodes4.
  apply quality_delta_preserves; [|done].
  apply preserves_while. intros s s1 b Hs Hpass. unfold entry_is in *.
  rewrite <- Hs.
  apply (shuffled_pass_keeps fx (fun o => merge_nodes4_visit o fx cc) v s s1 b);
    [|done|exact Hpass].
  intros o. apply merge_nodes4_visit_shape.
Qed.

Lemma move_nodes4_keeps fx cc rfn (v : nat) c :
  fx !! v = Some true -> preserves (entry_is v c) (move_nodes4 fx cc rfn).
Proof.
  intros Hv st Hst st'. unfold move_nodes4, move_nodes4_pass.
  destruct (shuffled_pass _ st) as [[[o p] b]|] eqn:Hpass; [|done].
  simpl. intros [= <-]. unfold entry_is in *. rewrite <- Hst.
  apply (shuffled_pass_keeps fx (fun o => move_nodes4_visit o fx cc) v st (o, p) b);
    [|done|exact Hpass].
  intros o0. apply move_nodes4_visit_shape.
Qed.

End Fixed.

(** ** The driver and the object the caller passed *)

Section Driver.
Context {R G P : Type} `{Rng R} `{MutableVertexPartition R G P}.

Lemma on_partition_object {A} (ptr cur : nat) (Q : P -> Prop) (m : M (Optimiser R * P) A) :
  preserves (fun st => Q st.2) m ->
  preserves (object_is (R:=R) (P:=P) ptr Q) (on_partition cur m).
Proof.
  intros Hm w (p & Hp & HQ) w'. unfold on_partition.
  destruct (heap w !! cur) as [pc|] eqn:Hcur; [|done].
  assert (forall st, state_of (m (opt w, pc)) = Some st ->
            object_is ptr Q (mkWorld (<[cur:=st.2]> (heap w)) st.1 (history w))) as Hst.
  { intros st Hst. destruct (decide (cur = ptr)) as [->|Hne].
    - exists st.2. simpl. split.
      + apply list_lookup_insert_eq. by eapply lookup_lt_Some.
      + apply (Hm (opt w, pc)); [|done]. simpl. congruence.
    - exists p. simpl. split; [|done]. by rewrite list_lookup_insert_ne. }
  destruct (m (opt w, pc)) as [a st|msg st| |l st]; simpl; try done;
    intros [= <-]; by apply Hst.
Qed.

Lemma deref_object ptr cur Q : preserves (object_is (R:=R) (P:=P) ptr Q) (deref cur).
Proof.
  intros w Hw w'. unfold deref. destruct (heap w !! cur); [|done].
  by intros [= <-].
Qed.

Lemma alloc_object ptr Q p : preserves (object_is (R:=R) (P:=P) ptr Q) (alloc p).
Proof.
  intros w (p0 & Hp0 & HQ) w' [= <-]. exists p0. simpl. split; [|done].
  by apply lookup_app_l_Some.
Qed.

Lemma log_round_object ptr Q b : preserves (object_is (R:=R) (P:=P) ptr Q) (log_round b).
Proof. intros w Hw w' [= <-]. done. Qed.

Lemma aggregate_partition_object ptr cur Q fx :
  preserves (object_is (R:=R) (P:=P) ptr Q) (aggregate_partition cur fx).
Proof.
  apply preserves_bind; [apply deref_object|].
  intros p w Hw w'. destruct (aggregate _ _ _ _ _) as [p' o'].
  apply alloc_object. done.
Qed.

Lemma optimise_round_object fuel ptr cur Q fx :
  preserves (fun st : Optimiser R * P => Q st.2) (move_nodes fuel fx) ->
  preserves (fun st : Optimiser R * P => Q st.2) (merge_nodes fuel fx) ->
  preserves (object_is (R:=R) (P:=P) ptr Q) (optimise_round fuel cur fx).
Proof.
  intros Hmove Hmerge w Hw w'. unfold optimise_round.
  apply preserves_bind; [|intros b; apply preserves_bind;
    [apply log_round_object|intros _; apply preserves_ret]|done].
  destruct (optimise_routine (opt w));
    (apply preserves_bind; [by apply on_partition_object|intros q; apply preserves_ret]).
Qed.

Lemma optimise_partition_loop_object fuel fuel_in n fx ptr Q :
  preserves (fun st : Optimiser R * P => Q st.2) (move_nodes fuel_in fx) ->
  preserves (fun st : Optimiser R * P => Q st.2) (merge_nodes fuel_in fx) ->
  forall cur b i,
    preserves (object_is (R:=R) (P:=P) ptr Q) (optimise_partition_loop fuel fuel_in n fx cur b i).
Proof.
  intros Hmove Hmerge. induction fuel as [|fuel IH]; intros cur b i; simpl.
  - destruct (_ && _); [|apply preserves_ret]. intros w Hw w' [= <-]. done.
  - destruct (_ && _); [|apply preserves_ret].
    apply preserves_bind; [by apply optimise_round_object|]. intros b'.
    apply preserves_bind; [|intros cur'; apply IH].
    destruct b'; [apply aggregate_partition_object|apply preserves_ret].
Qed.

Lemma optimise_partition_object fuel n fx ptr cur Q :
  preserves (fun st : Optimiser R * P => Q st.2) (move_nodes fuel fx) ->
  preserves (fun st : Optimiser R * P => Q st.2) (merge_nodes fuel fx) ->
  preserves (object_is (R:=R) (P:=P) ptr Q) (optimise_partition fuel cur n fx).
Proof.
  intros Hmove Hmerge. unfold optimise_partition.
  apply preserves_bind; [intros w Hw w' [= <-]; done|]. intros _.
  apply preserves_bind; [by apply optimise_round_object|]. intros b.
  apply preserves_bind; [|intros cur'; by apply optimise_partition_loop_object].
  destruct b; [apply aggregate_partition_object|apply preserves_ret].
Qed.

End Driver.

(** ** Fixed vertices *)

(** C5. A vertex [v] with [is_membership_fixed[v] = true] keeps its
    community through [move_nodes] and [merge_nodes] (with and without the
    [consider_comms] parameter) and through [optimise_partition]: whatever
    the configuration, the generator and the fuel, and whether the call
    returns or a loop is cut short, the entry of [v] in the membership vector
    of the caller's partition is the initial one. *)
Theorem fixed_vertices_keep_membership
    {R G P : Type} `{Rng R} `{MutableVertexPartition R G P} `{!PartitionLaws R G P}
    (is_membership_fixed : list bool) (v : nat) :
  is_membership_fixed !! v = Some true ->
  (forall fuel cc rfn (st st' : Optimiser R * P),
     (state_of (move_nodes fuel is_membership_fixed st) = Some st' \/
      state_of (move_nodes4 is_membership_fixed cc rfn st) = Some st' \/
      state_of (merge_nodes fuel is_membership_fixed st) = Some st' \/
      state_of (merge_nodes4 fuel is_membership_fixed cc rfn st) = Some st') ->
     membership st'.2 !! v = membership st.2 !! v) /\
  (forall fuel partition n_iterations (w w' : world R P) (p : P),
     heap w !! partition = Some p ->
     state_of (optimise_partition fuel partition n_iterations is_membership_fixed w)
       = Some w' ->
     exists p', heap w' !! partition = Some p' /\
                membership p' !! v = membership p !! v).
Proof.
  intros Hv. split.
  - intros fuel cc rfn st st' Hst.
    destruct Hst as [Hst|[Hst|[Hst|Hst]]].
    + by apply (move_nodes_keeps fuel is_membership_fixed v _ Hv st).
    + by apply (move_nodes4_keeps is_membership_fixed cc rfn v _ Hv st).
    + by apply (merge_nodes_keeps fuel is_membership_fixed v _ Hv st).
    + by apply (merge_nodes4_keeps fuel is_membership_fixed cc rfn v _ Hv st).
  - intros fuel ptr n w w' p Hp Hw'.
    apply (optimise_partition_object fuel n is_membership_fixed ptr ptr
             (fun q => membership q !! v = membership p !! v)) with (s := w).
    + by apply move_nodes_keeps.
    + by apply merge_nodes_keeps.
    + by exists p.
    + done.
Qed.

(** Vertex 0 of the three-vertex path fixed: [merge_nodes] joins 1 and 2
    and leaves 0 in community 0. *)
Lemma fixed_vertices_keep_membership_witness :
  exists st' : Optimiser Z * cpm_partition,
    state_of (merge_nodes 10 [true; false; false] (default_optimiser 42, path3)) = Some st' /\
    membership (R:=Z) st'.2 = [0; 1; 1] /\
    membership (R:=Z) st'.2 !! 0 = membership (R:=Z) path3 !! 0.
Proof.
  eexists. split; [vm_compute; reflexivity|]. split; [reflexivity|].
  apply (proj1 (fixed_vertices_keep_membership [true; false; false] 0 eq_refl)
           10 ALL_COMMS true (default_optimiser 42, path3)).
  right. right. left. vm_compute. reflexivity.
Defined.

(** ** The merge pass *)

Section MergePass.
Context {R G P : Type} `{Rng R} `{MutableVertexPartition R G P}.
Context `{!PartitionLaws R G P} `{!RngLaws R}.

Lemma rng_shuffle_NoDup (o o' : Optimiser R) (n : nat) (order : list nat) :
  rng_shuffle o (range n) = (order, o') -> NoDup order.
Proof.
  unfold rng_shuffle. pose proof (rng_shuffled_perm (rng o) (range n)) as Hperm.
  destruct (rng_shuffled _ _) as [v' r']. intros [= <- _].
  simpl in Hperm. rewrite Hperm. apply NoDup_seq.
Qed.

Lemma for_each_node_app {St} (f : St -> nat -> option St) (l1 l2 : list nat) (st : St) :
  for_each_node f (l1 ++ l2) st =
  match for_each_node f l1 st with
  | None => None
  | Some st1 => for_each_node f l2 st1
  end.
Proof.
  revert st. induction l1 as [|i l1 IH]; intros st; simpl; [done|].
  destruct (f st i); [apply IH|done].
Qed.

Lemma rest_of_pass_keeps fx f (l1 l2 : list nat) (v : nat) (st st1 st2 : P * bool) :
  visit_shape fx f ->
  v ∉ l2 ->
  for_each_node f (l1 ++ [v]) st = Some st1 ->
  for_each_node f (l1 ++ v :: l2) st = Some st2 ->
  membership st2.1 !! v = membership st1.1 !! v.
Proof.
  intros Hf Hv H1.
  replace (l1 ++ v :: l2) with ((l1 ++ [v]) ++ l2) by by rewrite <- app_assoc.
  rewrite for_each_node_app, H1. apply (visits_keep fx); [done|].
  intros i Hi. left. intros ->. done.
Qed.

End MergePass.

(** C8, as the code has it. [merge_nodes] has no pinning and no test for
    singletons; what holds is that one run of its [for] loop over the
    shuffled [nodes_to_visit] visits each vertex once. So within that run a
    vertex is not moved again once its turn is over: if the visit order is
    [l1 ++ v :: l2 ++ l3], then at every later point of the run (after
    [l1 ++ v :: l2]) the community of [v] is the one it had right after its
    own visit (after [l1 ++ [v]]), whether that visit moved it out of a
    singleton or not. Both [merge_nodes] forms are covered. *)
Theorem merge_pass_pins_visited_vertex
    {R G P : Type} `{Rng R} `{MutableVertexPartition R G P}
    `{!PartitionLaws R G P} `{!RngLaws R}
    (is_membership_fixed : list bool) (cc : consider_comms_t)
    (st : Optimiser R * P) (o' : Optimiser R) (l1 l2 l3 : list nat) (v : nat) :
  rng_shuffle st.1 (range (vcount st.2)) = (l1 ++ v :: l2 ++ l3, o') ->
  (forall st1 st2 : P * bool,
     for_each_node (merge_nodes_visit o' is_membership_fixed)
       (l1 ++ [v]) (st.2, false) = Some st1 ->
     for_each_node (merge_nodes_visit o' is_membership_fixed)
       (l1 ++ v :: l2) (st.2, false) = Some st2 ->
     membership st2.1 !! v = membership st1.1 !! v) /\
  (forall st1 st2 : P * bool,
     for_each_node (merge_nodes4_visit o' is_membership_fixed cc)
       (l1 ++ [v]) (st.2, false) = Some st1 ->
     for_each_node (merge_nodes4_visit o' is_membership_fixed cc)
       (l1 ++ v :: l2) (st.2, false) = Some st2 ->
     membership st2.1 !! v = membership st1.1 !! v).
Proof.
  intros Horder. apply rng_shuffle_NoDup in Horder.
  apply NoDup_app in Horder as (_ & _ & Hnd).
  apply NoDup_cons in Hnd as [Hv _].
  assert (v ∉ l2) as Hv2 by (intros Hin; apply Hv; apply elem_of_app; by left).
  split; intros st1 st2.
  - apply (rest_of_pass_keeps is_membership_fixed); [|done].
    apply merge_nodes_visit_shape.
  - apply (rest_of_pass_keeps is_membership_fixed); [|done].
    apply merge_nodes4_visit_shape.
Qed.

(** Seed 0 visits the three-vertex path in the order 0, 2, 1: vertex 0 moves
    to community 1 and is still there after the visit of 2. *)
Lemma merge_pass_pins_visited_vertex_witness :
  let o := rng_init (default_optimiser 0) in
  let o' := (rng_shuffle o (range 3)).2 in
  let visit := merge_nodes_visit o' [false; false; false] in
  (rng_shuffle o (range 3)).1 = [0; 2; 1] /\
  exists st1 st2 : cpm_partition * bool,
    for_each_node visit [0] (path3, false) = Some st1 /\
    for_each_node visit [0; 2] (path3, false) = Some st2 /\
    membership (R:=Z) st1.1 = [1; 1; 2] /\
    membership (R:=Z) st2.1 !! 0 = membership (R:=Z) st1.1 !! 0.
Proof.
  intros o o' visit. split; [vm_compute; reflexivity|].
  assert (exists st1, for_each_node visit [0] (path3, false) = Some st1 /\
                      membership (R:=Z) st1.1 = [1; 1; 2])
    as (st1 & H1 & Hm) by (eexists; split; vm_compute; reflexivity).
  assert (exists st2, for_each_node visit [0; 2] (path3, false) = Some st2)
    as (st2 & H2) by (eexists; vm_compute; reflexivity).
  exists st1, st2. split; [exact H1|]. split; [exact H2|]. split; [exact Hm|].
  assert (rng_shuffle (o, path3).1 (range (vcount (R:=Z) (o, path3).2))
          = ([] ++ 0 :: [2] ++ [1], o')) as Horder by (vm_compute; reflexivity).
  pose proof (merge_pass_pins_visited_vertex [false; false; false] ALL_COMMS
                (o, path3) o' [] [2] [1] 0 Horder) as [Hw _].
  exact (Hw st1 st2 H1 H2).
Defined.

(** ** Exceptions, undefined behaviour and exhausted loops *)

Lemma avoids_ret {S A} E (a : A) : avoids E (ret (S:=S) a).
Proof. intros s e. done. Qed.

Lemma avoids_bind {S A B} E (m : M S A) (k : A -> M S B) :
  avoids E m -> (forall a, avoids E (k a)) -> avoids E (bind m k).
Proof.
  intros Hm Hk s e. unfold bind. specialize (Hm s).
  destruct (m s) as [a s1|msg1 s1| |l s1]; try (by apply Hm).
  apply Hk.
Qed.

Lemma avoids_while {S} E l (pass : S -> option (S * bool)) fuel :
  ~ E EUndefined -> ~ E (EDiverge l) -> avoids E (while_improvement l pass fuel).
Proof.
  intros HU HE. induction fuel as [|fuel IH]; intros st e; simpl.
  - by intros [= <-].
  - destruct (pass st) as [[st1 [|]]|]; [apply IH|done|by intros [= <-]].
Qed.

Section Events.
Context {R G P : Type} `{Rng R} `{MutableVertexPartition R G P}.
Variable E : event -> Prop.
Hypothesis E_undefined : ~ E EUndefined.
Hypothesis E_move : ~ E (EDiverge InMoveNodes).
Hypothesis E_merge : ~ E (EDiverge InMergeNodes).
Hypothesis E_driver : ~ E (EDiverge InDriver).

Lemma avoids_quality_delta (m : M (Optimiser R * P) unit) (q0 : float) :
  avoids E m ->
  avoids E (do _ <- m; fun st' => Ret (quality st'.2 - q0)%float st').
Proof. intros Hm. apply avoids_bind; [done|]. intros _ s e. done. Qed.

Lemma avoids_move_nodes fuel fx : avoids E (move_nodes (P:=P) fuel fx).
Proof.
  intros st. unfold move_nodes.
  by apply avoids_quality_delta, avoids_while.
Qed.

Lemma avoids_merge_nodes fuel fx : avoids E (merge_nodes (P:=P) fuel fx).
Proof.
  intros st. unfold merge_nodes.
  by apply avoids_quality_delta, avoids_while.
Qed.

Lemma avoids_on_partition {A} cur (m : M (Optimiser R * P) A) :
  avoids E m -> avoids E (on_partition cur m).
Proof.
  intros Hm w e. unfold on_partition.
  destruct (heap w !! cur) as [p|]; [|by intros [= <-]].
  specialize (Hm (opt w, p)).
  destruct (m (opt w, p)) as [a st|msg1 st| |l st]; try done; apply Hm.
Qed.

Lemma avoids_deref cur : avoids E (deref (R:=R) (P:=P) cur).
Proof.
  intros w e. unfold deref. destruct (heap w !! cur); [done|]. by intros [= <-].
Qed.

Lemma avoids_alloc (p : P) : avoids E (alloc (R:=R) p).
Proof. intros w e. done. Qed.

Lemma avoids_optimise_round fuel cur fx : avoids E (optimise_round (P:=P) fuel cur fx).
Proof.
  intros w. unfold optimise_round.
  apply avoids_bind; [|intros b; apply avoids_bind; [done|intros _; apply avoids_ret]].
  destruct (optimise_routine (opt w));
    (apply avoids_bind; [apply avoids_on_partition|intros q; apply avoids_ret]).
  - apply avoids_move_nodes.
  - apply avoids_merge_nodes.
Qed.

Lemma avoids_aggregate_partition cur fx : avoids E (aggregate_partition (P:=P) cur fx).
Proof.
  apply avoids_bind; [apply avoids_deref|].
  intros p w e. by destruct (aggregate _ _ _ _ _).
Qed.

Lemma avoids_in_world {A} (m : M (world R P) A) : avoids E m -> avoids E (in_world m).
Proof.
  intros Hm s e. unfold in_world. specialize (Hm (hw s)).
  destruct (m (hw s)) as [a w|msg1 w| |l w]; try done; apply Hm.
Qed.

Lemma avoids_hierarchy_reset cur : avoids E (hierarchy_reset (R:=R) (P:=P) cur).
Proof.
  apply avoids_bind; [apply avoids_in_world, avoids_deref|]. intros p.
  apply avoids_bind; [apply avoids_in_world, avoids_alloc|]. done.
Qed.

Lemma avoids_hierarchy_push new cur : avoids E (hierarchy_push (R:=R) (P:=P) new cur).
Proof.
  apply avoids_bind; [apply avoids_in_world, avoids_deref|]. intros pn.
  apply avoids_bind; [apply avoids_in_world, avoids_deref|]. intros po.
  apply avoids_bind; [apply avoids_in_world, avoids_alloc|]. done.
Qed.

Lemma avoids_hierarchical_round fuel cur fx :
  avoids E (hierarchical_round (P:=P) fuel cur fx).
Proof.
  apply avoids_bind; [apply avoids_in_world, avoids_optimise_round|].
  intros [|]; [|apply avoids_ret].
  apply avoids_bind; [apply avoids_in_world, avoids_aggregate_partition|]. intros new.
  apply avoids_bind; [apply avoids_hierarchy_push|]. intros _. apply avoids_ret.
Qed.

Lemma avoids_hierarchical_loop fuel fuel_in fx :
  forall cur b, avoids E (hierarchical_loop (P:=P) fuel fuel_in fx cur b).
Proof.
  induction fuel as [|fuel IH]; intros cur [|]; simpl; try apply avoids_ret.
  - by intros s e [= <-].
  - apply avoids_bind; [apply avoids_hierarchical_round|]. intros r. apply IH.
Qed.

Lemma avoids_hierarchy_quality : avoids E (hierarchy_quality (R:=R) (P:=P)).
Proof.
  intros s. unfold hierarchy_quality. destruct (last (hierarchy s)); [|done].
  apply avoids_bind; [apply avoids_in_world, avoids_deref|].
  intros p. apply avoids_ret.
Qed.

End Events.

Lemma no_throw_Throw {S A} (m : M S A) (s : S) msg (s' : S) :
  avoids is_throw m -> m s <> Throw msg s'.
Proof. intros Hm Heq. apply (Hm s (EThrow msg)); [by rewrite Heq|]. by exists msg. Qed.

(** C9. [optimise_partition_hierarchical] throws exactly when [partitions]
    and [layer_weights] differ in size; the exception is the size error of
    its first statement, and the state it leaves (the partition objects, the
    optimiser, and the vectors [partitions] and [hierarchy]) is the state it
    was called in. *)
Theorem hierarchical_throws_iff_sizes_differ
    {R G P : Type} `{Rng R} `{MutableVertexPartition R G P}
    (fuel : nat) (layer_weights : list float) (is_membership_fixed : list bool)
    (s : hstate R P) :
  ((exists msg s',
      optimise_partition_hierarchical fuel layer_weights is_membership_fixed s
        = Throw msg s')
   <-> length (partitions s) ≠ length layer_weights) /\
  (forall msg s',
      optimise_partition_hierarchical fuel layer_weights is_membership_fixed s
        = Throw msg s' ->
      msg = size_error /\ s' = s).
Proof.
  unfold optimise_partition_hierarchical.
  destruct (length (partitions s) =? length layer_weights) eqn:Hlen; simpl.
  - apply Nat.eqb_eq in Hlen.
    assert (forall msg s',
      match partitions s !! 0 with
      | Some partition =>
          (do _ <- in_world
                     (fun w => Ret () (mkWorld (heap w) (rng_init (opt w)) (history w)));
           do _ <- hierarchy_reset partition;
           do r <- hierarchical_round fuel partition is_membership_fixed;
           do _ <- hierarchical_loop fuel fuel is_membership_fixed r.1 r.2;
           hierarchy_quality) s
      | None => Undefined
      end <> Throw msg s') as Hno.
    { intros msg s'. destruct (partitions s !! 0) as [partition|]; [|done].
      assert (~ is_throw EUndefined) as HU by (by intros [m [=]]).
      assert (forall l, ~ is_throw (EDiverge l)) as HD by (by intros l [m [=]]).
      apply no_throw_Throw.
      apply avoids_bind; [apply avoids_in_world; by intros w e|]. intros _.
      apply avoids_bind; [by apply avoids_hierarchy_reset|]. intros _.
      apply avoids_bind; [by apply avoids_hierarchical_round|]. intros r.
      apply avoids_bind; [by apply avoids_hierarchical_loop|]. intros _.
      by apply avoids_hierarchy_quality. }
    split.
    + split; [|done]. intros (msg & s' & Hthrow). by apply Hno in Hthrow.
    + intros msg s' Hthrow. by apply Hno in Hthrow.
  - apply Nat.eqb_neq in Hlen. split.
    + split; [done|]. intros _. eauto.
    + by intros msg s' [= <- <-].
Qed.

(** ** The hierarchy *)

Lemma bind_Ret {S A B} (m : M S A) (k : A -> M S B) (s : S) (b : B) (s2 : S) :
  bind m k s = Ret b s2 -> exists a s1, m s = Ret a s1 /\ k a s1 = Ret b s2.
Proof. unfold bind. destruct (m s) as [a s1|msg s1| |l s1]; try done. eauto. Qed.

Lemma preserves_Ret {S A} (Inv : S -> Prop) (m : M S A) (s : S) (a : A) (s' : S) :
  preserves Inv m -> Inv s -> m s = Ret a s' -> Inv s'.
Proof. intros Hm Hs Hret. apply (Hm s Hs). by rewrite Hret. Qed.

Section Hierarchy.
Context {R G P : Type} `{Rng R} `{MutableVertexPartition R G P}.

Lemma in_world_Ret {A} (m : M (world R P) A) (s : hstate R P) (a : A) (s' : hstate R P) :
  in_world m s = Ret a s' ->
  exists w', m (hw s) = Ret a w' /\ s' = mkHstate w' (partitions s) (hierarchy s).
Proof.
  unfold in_world. destruct (m (hw s)) as [a1 w|msg w| |l w]; try done.
  intros [= <- <-]. eauto.
Qed.

Lemma on_partition_other {A} (h0 cur : nat) (c0 : P) (m : M (Optimiser R * P) A) :
  cur ≠ h0 -> preserves (holds_at (R:=R) (P:=P) h0 c0) (on_partition cur m).
Proof.
  intros Hne w Hw w'. unfold on_partition, holds_at in *.
  destruct (heap w !! cur) as [pc|]; [|done].
  destruct (m (opt w, pc)) as [a st|msg st| |l st]; simpl; try done;
    intros [= <-]; simpl; by rewrite list_lookup_insert_ne.
Qed.

Lemma optimise_round_other (h0 cur : nat) (c0 : P) fuel fx :
  cur ≠ h0 -> preserves (holds_at (R:=R) (P:=P) h0 c0) (optimise_round fuel cur fx).
Proof.
  intros Hne w Hw w'. unfold optimise_round.
  apply preserves_bind; [|intros b; apply preserves_bind;
    [by intros w1 Hw1 w2 [= <-]|intros _; apply preserves_ret]|done].
  destruct (optimise_routine (opt w));
    (apply preserves_bind; [by apply on_partition_other|intros q; apply preserves_ret]).
Qed.

Lemma aggregate_partition_fresh (h0 cur : nat) (c0 : P) fx (w w' : world R P) (new : nat) :
  holds_at h0 c0 w ->
  aggregate_partition cur fx w = Ret new w' ->
  holds_at h0 c0 w' /\ new ≠ h0.
Proof.
  unfold holds_at. intros Hw Hret.
  apply bind_Ret in Hret as (p & w1 & Hderef & Hret).
  unfold deref in Hderef. destruct (heap w !! cur); [|done].
  injection Hderef as <- <-.
  destruct (aggregate _ _ _ _ _) as [p' o']. injection Hret as <- <-. simpl.
  split; [by apply lookup_app_l_Some|].
  apply lookup_lt_Some in Hw. lia.
Qed.

Lemma hierarchy_push_kept (h0 new cur : nat) (c0 : P) (s s' : hstate R P) :
  snapshot_kept h0 c0 s ->
  hierarchy_push new cur s = Ret tt s' ->
  snapshot_kept h0 c0 s'.
Proof.
  intros [Hh0 [rest Hrest]] Hret.
  apply bind_Ret in Hret as (pn & s1 & Hpn & Hret).
  apply in_world_Ret in Hpn as (w1 & Hpn & ->).
  unfold deref in Hpn. destruct (heap (hw s) !! new); [|done]. injection Hpn as <- <-.
  apply bind_Ret in Hret as (po & s2 & Hpo & Hret).
  apply in_world_Ret in Hpo as (w2 & Hpo & ->). simpl in *.
  unfold deref in Hpo. destruct (heap (hw s) !! cur); [|done]. injection Hpo as <- <-.
  apply bind_Ret in Hret as (c & s3 & Hc & Hret).
  apply in_world_Ret in Hc as (w3 & Hc & ->). simpl in *.
  injection Hc as <- <-. injection Hret as <-.
  split; simpl.
  - by apply lookup_app_l_Some.
  - exists (rest ++ [length (heap (hw s))]). by rewrite Hrest.
Qed.

Lemma hierarchical_round_kept (h0 cur : nat) (c0 : P) fuel fx (s s' : hstate R P) r :
  cur ≠ h0 ->
  snapshot_kept h0 c0 s ->
  hierarchical_round fuel cur fx s = Ret r s' ->
  snapshot_kept h0 c0 s' /\ r.1 ≠ h0.
Proof.
  intros Hne [Hh0 Hrest] Hret.
  apply bind_Ret in Hret as (b & s1 & Hround & Hret).
  apply in_world_Ret in Hround as (w1 & Hround & ->).
  assert (holds_at h0 c0 w1) as Hw1.
  { by apply (preserves_Ret _ _ _ _ _ (optimise_round_other h0 cur c0 fuel fx Hne) Hh0 Hround). }
  destruct b.
  - apply bind_Ret in Hret as (new & s2 & Hagg & Hret).
    apply in_world_Ret in Hagg as (w2 & Hagg & ->). simpl in *.
    apply (aggregate_partition_fresh h0 cur c0) in Hagg as [Hw2 Hnew]; [|done].
    apply bind_Ret in Hret as ([] & s3 & Hpush & Hret).
    apply (hierarchy_push_kept h0 _ _ c0) in Hpush; [|by split].
    injection Hret as <- <-. done.
  - injection Hret as <- <-. simpl. by repeat split.
Qed.

Lemma hierarchical_loop_kept (h0 : nat) (c0 : P) fuel fuel_in fx :
  forall cur b (s s' : hstate R P),
    cur ≠ h0 ->
    snapshot_kept h0 c0 s ->
    hierarchical_loop fuel fuel_in fx cur b s = Ret tt s' ->
    snapshot_kept h0 c0 s'.
Proof.
  induction fuel as [|fuel IH]; intros cur [|] s s' Hne Hs; simpl; try done.
  - by intros [= <-].
  - intros Hret. apply bind_Ret in Hret as (r & s1 & Hround & Hret).
    apply (hierarchical_round_kept h0 cur c0) in Hround as [Hs1 Hr]; [|done..].
    by apply (IH r.1 r.2 s1 s').
  - by intros [= <-].
Qed.

Lemma hierarchy_reset_Ret (cur : nat) (s s' : hstate R P) :
  hierarchy_reset cur s = Ret tt s' ->
  exists p0, heap (hw s) !! cur = Some p0 /\
             snapshot_kept (length (heap (hw s))) (copy p0) s' /\
             hierarchy s' = [length (heap (hw s))] /\
             cur ≠ length (heap (hw s)).
Proof.
  intros Hret.
  apply bind_Ret in Hret as (p0 & s1 & Hp0 & Hret).
  apply in_world_Ret in Hp0 as (w1 & Hp0 & ->).
  unfold deref in Hp0. destruct (heap (hw s) !! cur) as [p|] eqn:Hcur; [|done].
  injection Hp0 as <- <-.
  apply bind_Ret in Hret as (c & s2 & Hc & Hret).
  apply in_world_Ret in Hc as (w2 & Hc & ->). simpl in *.
  injection Hc as <- <-. injection Hret as <-.
  exists p. split; [done|]. split; [|split; [done|]].
  - split; simpl; [|by eexists].
    rewrite lookup_app_r by done. by rewrite Nat.sub_diag.
  - apply lookup_lt_Some in Hcur. lia.
Qed.

Lemma hierarchy_quality_Ret (s s' : hstate R P) (q : float) :
  hierarchy_quality s = Ret q s' ->
  s' = s /\
  match last (hierarchy s) with
  | None => q = 0%float
  | Some back => exists pb, heap (hw s) !! back = Some pb /\ q = quality pb
  end.
Proof.
  unfold hierarchy_quality. destruct (last (hierarchy s)) as [back|].
  - intros Hret. apply bind_Ret in Hret as (pb & s1 & Hpb & Hret).
    apply in_world_Ret in Hpb as (w1 & Hpb & ->).
    unfold deref in Hpb. destruct (heap (hw s) !! back) as [p|]; [|done].
    injection Hpb as <- <-. injection Hret as <- <-.
    split; [by destruct s|]. eauto.
  - by intros [= <- <-].
Qed.

End Hierarchy.

(** C10. When [partitions] and [layer_weights] have the same size and
    [optimise_partition_hierarchical] returns, the hierarchy it leaves starts
    with a new object [h0], allocated by the call itself before the first
    optimisation round (so nothing of the caller's old hierarchy is left),
    and [h0] still holds [copy()] of the partition [partitions[0]] pointed to
    when the call began, whatever was moved since. The value returned is
    [quality()] of the last element of the hierarchy. *)
Theorem hierarchical_snapshot_and_result
    {R G P : Type} `{Rng R} `{MutableVertexPartition R G P}
    (fuel : nat) (layer_weights : list float) (is_membership_fixed : list bool)
    (s s' : hstate R P) (q : float) :
  length (partitions s) = length layer_weights ->
  optimise_partition_hierarchical fuel layer_weights is_membership_fixed s = Ret q s' ->
  exists (partition : nat) (p0 : P) (rest : list nat) (back : nat) (pb : P),
    partitions s !! 0 = Some partition /\
    heap (hw s) !! partition = Some p0 /\
    hierarchy s' = length (heap (hw s)) :: rest /\
    heap (hw s') !! length (heap (hw s)) = Some (copy p0) /\
    last (hierarchy s') = Some back /\
    heap (hw s') !! back = Some pb /\
    q = quality pb.
Proof.
  intros Hlen. unfold optimise_partition_hierarchical.
  apply Nat.eqb_eq in Hlen. rewrite Hlen. simpl.
  destruct (partitions s !! 0) as [partition|]; [|done].
  intros Hret.
  apply bind_Ret in Hret as ([] & s1 & Hinit & Hret).
  apply in_world_Ret in Hinit as (w1 & [= <-] & ->).
  apply bind_Ret in Hret as ([] & s2 & Hreset & Hret).
  apply hierarchy_reset_Ret in Hreset as (p0 & Hp0 & Hs2 & _ & Hne). simpl in *.
  apply bind_Ret in Hret as (r & s3 & Hround & Hret).
  apply (hierarchical_round_kept _ _ _ _ _ _ _ _ Hne Hs2) in Hround as [Hs3 Hr].
  apply bind_Ret in Hret as ([] & s4 & Hloop & Hret).
  apply (hierarchical_loop_kept _ _ _ _ _ _ _ _ _ Hr Hs3) in Hloop as [Hh0 [rest Hrest]].
  apply hierarchy_quality_Ret in Hret as [-> Hq].
  rewrite Hrest in Hq. destruct (last (_ :: rest)) as [back|] eqn:Hback.
  - destruct Hq as (pb & Hpb & ->).
    exists partition, p0, rest, back, pb. rewrite Hrest. done.
  - by apply last_None in Hback.
Qed.

(** On the three-vertex path, no vertex fixed, called with an old hierarchy
    [7; 8]. *)
Lemma hierarchical_snapshot_and_result_witness :
  let s := mkHstate (mkWorld [path3] (default_optimiser 42) []) [0] [7; 8] in
  exists q s',
    optimise_partition_hierarchical 10 [1%float] [false; false; false] s = Ret q s' /\
    hierarchy s' = [1; 3] /\
    heap (hw s') !! 1 = Some path3 /\
    exists back pb, last (hierarchy s') = Some back /\
                    heap (hw s') !! back = Some pb /\
                    q = quality (R:=Z) pb.
Proof.
  intros s.
  assert (exists q s', optimise_partition_hierarchical 10 [1%float] [false; false; false] s
                         = Ret q s' /\
                       hierarchy s' = [1; 3])
    as (q & s' & Hret & Hh) by (eexists _, _; split; vm_compute; reflexivity).
  destruct (hierarchical_snapshot_and_result 10 [1%float] [false; false; false] s s' q
              eq_refl Hret)
    as (partition & p0 & rest & back & pb & Hpart & Hp0 & Hrest & Hh0 & Hback & Hpb & Hq).
  injection Hpart as <-. injection Hp0 as <-.
  exists q, s'. split; [exact Hret|]. split; [exact Hh|]. split; [exact Hh0|].
  exists back, pb. split; [exact Hback|]. split; [exact Hpb|exact Hq].
Defined.

(** ** How many rounds the driver runs *)

Lemma rounds_shape_nil : rounds_shape [].
Proof. exists 0. by left. Qed.

Lemma rounds_shape_false : rounds_shape [false].
Proof. exists 0. by right. Qed.

Lemma rounds_shape_true h : rounds_shape h -> rounds_shape (true :: h).
Proof. intros [k [->| ->]]; exists (S k); [by left|by right]. Qed.

Section Rounds.
Context {R G P : Type} `{Rng R} `{MutableVertexPartition R G P}.

Lemma on_partition_history {A} cur (m : M (Optimiser R * P) A) (w w' : world R P) :
  state_of (on_partition cur m w) = Some w' -> history w' = history w.
Proof.
  unfold on_partition.
  destruct (heap w !! cur) as [p|]; [|done].
  destruct (m (opt w, p)) as [a st|msg st| |l st]; simpl; try done; by intros [= <-].
Qed.

Lemma optimise_round_history fuel cur fx (w : world R P) :
  match optimise_round fuel cur fx w with
  | Ret b w' => history w' = history w ++ [b]
  | Throw _ w' | Diverge _ w' => history w' = history w
  | Undefined => True
  end.
Proof.
  unfold optimise_round.
  destruct (optimise_routine (opt w)); unfold bind;
    match goal with
    | |- context [on_partition ?c ?m ?w0] =>
        pose proof (on_partition_history c m w0) as Hh;
        destruct (on_partition c m w0) as [a w1|msg w1| |l w1]
    end; simpl in *; try done; try (by apply Hh); by rewrite (Hh w1 eq_refl).
Qed.

Lemma aggregate_partition_history cur fx (w w' : world R P) :
  state_of (aggregate_partition cur fx w) = Some w' -> history w' = history w.
Proof.
  unfold aggregate_partition, bind, deref.
  destruct (heap w !! cur) as [p|]; [|done].
  destruct (aggregate _ _ _ _ _) as [p' o']. by intros [= <-].
Qed.

Lemma optimise_partition_loop_rounds fuel fuel_in n fx :
  forall cur b i (w : world R P),
    rounds_run n i b w (optimise_partition_loop fuel fuel_in n fx cur b i w).
Proof.
  induction fuel as [|fuel IH]; intros cur b i w; simpl.
  - destruct (b && _) eqn:Hc.
    + apply andb_true_iff in Hc as [-> _]. intros w' [= <-].
      exists []. rewrite app_nil_r. repeat split; try done.
      * apply rounds_shape_nil.
      * simpl. lia.
    + intros w' [= <-]. exists []. rewrite app_nil_r.
      repeat split; try done; [apply rounds_shape_nil|simpl; lia|].
      intros _ ->. simpl in Hc. right. apply orb_false_iff in Hc as [Hn Hi].
      apply Z.ltb_ge in Hn, Hi. simpl. lia.
  - destruct (b && _) eqn:Hc.
    + apply andb_true_iff in Hc as [-> Hc]. unfold bind at 1.
      pose proof (optimise_round_history fuel_in cur fx w) as Hround.
      assert ((0 <= n)%Z -> (i < n)%Z) as Hin.
      { intros Hn. apply orb_true_iff in Hc as [Hc|Hc]; [apply Z.ltb_lt in Hc; lia|].
        by apply Z.ltb_lt. }
      destruct (optimise_round fuel_in cur fx w) as [b1 w1|msg w1| |l w1].
      * assert (forall cur' (w2 : world R P), history w2 = history w1 ->
                  rounds_run n i true w
                    (optimise_partition_loop fuel fuel_in n fx cur' b1 (i + 1) w2)) as Hrest.
        { intros cur' w2 Hw2 w' Hw'.
          destruct (IH cur' b1 (i + 1)%Z w2 w' Hw') as (h & Hh & Hfalse & Hshape & Hbound & Hret).
          exists (b1 :: h). rewrite Hh, Hw2, Hround, <- app_assoc. split; [done|].
          split; [done|]. destruct b1.
          - split; [by apply rounds_shape_true|]. split.
            + intros Hn. specialize (Hbound Hn). specialize (Hin Hn). simpl. lia.
            + intros Hr _. destruct (Hret Hr eq_refl) as [Hlast|[Hn Hlen]].
              * left. destruct h; [done|]. by rewrite last_cons_cons.
              * right. split; [done|]. specialize (Hin Hn). simpl. lia.
          - rewrite (Hfalse eq_refl). split; [apply rounds_shape_false|]. split.
            + intros Hn. specialize (Hin Hn). simpl. lia.
            + intros _ _. by left. }
        unfold bind. destruct b1.
        -- pose proof (aggregate_partition_history cur fx w1) as Hagg.
           destruct (aggregate_partition cur fx w1) as [cur' w2|msg w2| |l w2].
           ++ apply Hrest. by apply Hagg.
           ++ intros w' [= <-]. exists [true].
              rewrite (Hagg w2 eq_refl), Hround. repeat split; try done.
              ** apply rounds_shape_true, rounds_shape_nil.
              ** intros Hn. specialize (Hin Hn). simpl. lia.
           ++ done.
           ++ intros w' [= <-]. exists [true].
              rewrite (Hagg w2 eq_refl), Hround. repeat split; try done.
              ** apply rounds_shape_true, rounds_shape_nil.
              ** intros Hn. specialize (Hin Hn). simpl. lia.
        -- by apply Hrest.
      * intros w' [= <-]. exists []. rewrite app_nil_r.
        repeat split; try done; [apply rounds_shape_nil|simpl; lia].
      * done.
      * intros w' [= <-]. exists []. rewrite app_nil_r.
        repeat split; try done; [apply rounds_shape_nil|simpl; lia].
    + intros w' [= <-]. exists []. rewrite app_nil_r.
      repeat split; try done; [apply rounds_shape_nil|simpl; lia|].
      intros _ ->. simpl in Hc. right. apply orb_false_iff in Hc as [Hn Hi].
      apply Z.ltb_ge in Hn, Hi. simpl. lia.
Qed.

Lemma optimise_partition_loop_fuel fuel fuel_in n fx :
  forall cur b i,
    (0 <= n)%Z -> (n - i <= Z.of_nat fuel)%Z ->
    avoids (eq (EDiverge InDriver))
      (optimise_partition_loop (P:=P) fuel fuel_in n fx cur b i).
Proof.
  induction fuel as [|fuel IH]; intros cur b i Hn Hfuel; simpl.
  - destruct (b && _) eqn:Hc; [|apply avoids_ret].
    apply andb_true_iff in Hc as [_ Hc]. apply orb_true_iff in Hc as [Hc|Hc];
      apply Z.ltb_lt in Hc; lia.
  - destruct (b && _); [|apply avoids_ret].
    apply avoids_bind; [by apply avoids_optimise_round|]. intros b'.
    apply avoids_bind; [|intros cur'; apply IH; lia].
    destruct b'; [by apply avoids_aggregate_partition|apply avoids_ret].
Qed.

Lemma optimise_partition_driver_rounds fuel partition n_iterations is_membership_fixed
    (w : world R P) :
  driver_rounds n_iterations w
    (optimise_partition fuel partition n_iterations is_membership_fixed w).
Proof.
  unfold optimise_partition. unfold bind at 1. unfold bind at 1.
  set (w0 := mkWorld (heap w) (rng_init (opt w)) (history w)).
  pose proof (optimise_round_history fuel partition is_membership_fixed w0) as Hround.
  destruct (optimise_round fuel partition is_membership_fixed w0) as [b1 w1|msg w1| |l w1];
    simpl in Hround.
  - assert (forall cur' (w2 : world R P), history w2 = history w1 ->
      driver_rounds n_iterations w
        (optimise_partition_loop fuel fuel n_iterations
           is_membership_fixed cur' b1 1 w2)) as Hrest.
    { intros cur' w2 Hw2 w' Hw'.
      destruct (optimise_partition_loop_rounds fuel fuel n_iterations
                  is_membership_fixed cur' b1 1%Z w2 w' Hw')
        as (h & Hh & Hfalse & Hshape & Hbound & Hret).
      exists (b1 :: h). rewrite Hh, Hw2, Hround, <- app_assoc. split; [done|].
      destruct b1.
      - split; [by apply rounds_shape_true|]. split.
        + intros Hn. specialize (Hbound Hn). simpl. lia.
        + intros Hr. destruct (Hret Hr eq_refl) as [Hlast|[Hn Hlen]].
          * left. destruct h; [done|]. by rewrite last_cons_cons.
          * right. split; [done|]. simpl. lia.
      - rewrite (Hfalse eq_refl). split; [apply rounds_shape_false|]. split.
        + intros Hn. simpl. lia.
        + intros _. by left. }
    unfold bind. destruct b1.
    + pose proof (aggregate_partition_history partition is_membership_fixed w1) as Hagg.
      destruct (aggregate_partition partition is_membership_fixed w1)
        as [cur' w2|msg w2| |l w2].
      * apply Hrest. by apply Hagg.
      * intros w' [= <-]. exists [true]. rewrite (Hagg w2 eq_refl), Hround.
        repeat split; try done; [apply rounds_shape_true, rounds_shape_nil|simpl; lia].
      * done.
      * intros w' [= <-]. exists [true]. rewrite (Hagg w2 eq_refl), Hround.
        repeat split; try done; [apply rounds_shape_true, rounds_shape_nil|simpl; lia].
    + by apply Hrest.
  - intros w' [= <-]. exists []. rewrite app_nil_r.
    repeat split; try done; [apply rounds_shape_nil|simpl; lia].
  - done.
  - intros w' [= <-]. exists []. rewrite app_nil_r.
    repeat split; try done; [apply rounds_shape_nil|simpl; lia].
Qed.

End Rounds.

(** C7, as the code has it. [optimise_partition] always runs a first
    optimisation round. Every round but the last one improved; the driver
    stops after the first round that did not improve, or, when
    [n_iterations >= 0], once [max 1 n_iterations] rounds have been run: it
    never runs more than that, so [n_iterations = 0] and [n_iterations = 1]
    both run one round. With a negative [n_iterations] only a round without
    improvement ends the run. For [0 <= n_iterations <= fuel] the driver's own
    loop does not run out of fuel: the call can only fail to return inside a
    routine. Here [h] lists [was_improvement] after each round of the call. *)
Theorem optimise_partition_rounds
    {R G P : Type} `{Rng R} `{MutableVertexPartition R G P}
    (fuel partition : nat) (n_iterations : Z) (is_membership_fixed : list bool)
    (w : world R P) :
  let r := optimise_partition fuel partition n_iterations is_membership_fixed w in
  (forall w', state_of r = Some w' ->
     exists h,
       history w' = history w ++ h /\
       rounds_shape h /\
       ((0 <= n_iterations)%Z -> (Z.of_nat (length h) <= Z.max 1 n_iterations)%Z) /\
       (is_ret r ->
          last h = Some false \/
          ((0 <= n_iterations)%Z /\ Z.of_nat (length h) = Z.max 1 n_iterations))) /\
  ((0 <= n_iterations)%Z -> (n_iterations <= Z.of_nat fuel)%Z ->
   forall w', r <> Diverge InDriver w').
Proof.
  intros r. subst r. split.
  - apply optimise_partition_driver_rounds.
  - intros Hn Hfuel w' Hdiv.
    assert (avoids (eq (EDiverge InDriver))
              (optimise_partition (P:=P) fuel partition n_iterations is_membership_fixed))
      as Hav.
    { unfold optimise_partition.
      apply avoids_bind; [by intros w1 e|]. intros _.
      apply avoids_bind; [by apply avoids_optimise_round|]. intros b.
      apply avoids_bind; [|intros cur'; apply optimise_partition_loop_fuel; lia].
      destruct b; [by apply avoids_aggregate_partition|apply avoids_ret]. }
    apply (Hav w (EDiverge InDriver)); [by rewrite Hdiv|done].
Qed.

(** C7, as the claim has it, fails: with [n_iterations = 0] the call on the
    three-vertex path, no vertex fixed, runs one round (which improves), not
    zero. *)
Lemma zero_iterations_runs_a_round :
  exists w' : world Z cpm_partition,
    optimise_partition 10 0 0 [false; false; false]
      (mkWorld [path3] (default_optimiser 42) []) = Ret tt w' /\
    history w' = [true] /\
    ~ (Z.of_nat (length (history w')) <= 0)%Z.
Proof.
  eexists. split; [vm_compute; reflexivity|]. split; [reflexivity|]. simpl. lia.
Qed.

(** ** The empty graph *)

Section EmptyGraph.
Context {R G P : Type} `{Rng R} `{MutableVertexPartition R G P} `{!RngLaws R}.

Lemma shuffled_pass_empty visit (st : Optimiser R * P) :
  vcount st.2 = 0 -> exists o', shuffled_pass visit st = Some (o', st.2, false).
Proof.
  intros Hn. unfold shuffled_pass, rng_shuffle. rewrite Hn.
  pose proof (rng_shuffled_perm (rng st.1) (range 0)) as Hperm.
  destruct (rng_shuffled _ _) as [v' r']. simpl in Hperm.
  apply Permutation_nil_r in Hperm as ->. simpl. eauto.
Qed.

Lemma while_improvement_clean {St} l (pass : St -> option (St * bool)) fuel
    (st st' : St) :
  pass st = Some (st', false) -> while_improvement l pass (S fuel) st = Ret tt st'.
Proof. intros Hpass. simpl. by rewrite Hpass. Qed.

Lemma optimise_round_empty fuel cur fx (w : world R P) (p : P) :
  heap w !! cur = Some p ->
  vcount p = 0 ->
  exists o', optimise_round (S fuel) cur fx w =
             Ret false (mkWorld (heap w) o' (history w ++ [false])).
Proof.
  intros Hp Hn. unfold optimise_round.
  destruct (optimise_routine (opt w)); unfold bind, on_partition; rewrite Hp.
  - unfold move_nodes, bind, move_nodes_impl.
    destruct (shuffled_pass_empty
                (fun o => move_nodes_impl_visit o fx) (opt w, p) Hn) as [o' Hpass].
    rewrite (while_improvement_clean _ _ _ _ _ Hpass). simpl.
    rewrite sub_diag_not_pos, (list_insert_id _ _ _ Hp). eauto.
  - unfold merge_nodes, bind, merge_nodes_loop.
    destruct (shuffled_pass_empty
                (fun o => merge_nodes_visit o fx) (opt w, p) Hn) as [o' Hpass].
    rewrite (while_improvement_clean _ _ _ _ _ Hpass). simpl.
    rewrite sub_diag_not_pos, (list_insert_id _ _ _ Hp). eauto.
Qed.

End EmptyGraph.

(** C1, as the code has it. [optimise_partition] is a [void] function: what
    it returns carries no quality. On a partition of the empty graph
    ([vcount() = 0]) it returns, for every [n_iterations] and every
    [is_membership_fixed] (of which nothing is read), without an exception,
    after one round that did not improve; the partition objects are left as
    they were, so the membership vector stays empty. *)
Theorem optimise_partition_empty_graph
    {R G P : Type} `{Rng R} `{MutableVertexPartition R G P} `{!RngLaws R}
    (fuel partition : nat) (n_iterations : Z) (is_membership_fixed : list bool)
    (w : world R P) (p : P) :
  heap w !! partition = Some p ->
  vcount p = 0 ->
  exists o',
    optimise_partition (S fuel) partition n_iterations is_membership_fixed w =
    Ret tt (mkWorld (heap w) o' (history w ++ [false])).
Proof.
  intros Hp Hn. unfold optimise_partition. unfold bind at 1. unfold bind at 1.
  destruct (optimise_round_empty fuel partition is_membership_fixed
              (mkWorld (heap w) (rng_init (opt w)) (history w)) p Hp Hn) as [o' Hround].
  rewrite Hround. simpl. eauto.
Qed.

(** The empty CPM partition, with [n_iterations = -1]. *)
Lemma optimise_partition_empty_graph_witness :
  exists o',
    optimise_partition 1 0 (-1) [] (mkWorld [empty_cpm] (default_optimiser 42) []) =
    Ret tt (mkWorld [empty_cpm] o' [false]).
Proof.
  apply (optimise_partition_empty_graph 0 0 (-1) []
           (mkWorld [empty_cpm] (default_optimiser 42) []) empty_cpm);
    reflexivity.
Defined.

(** C1, as the claim has it, fails: no reading of the value returned gives
    the final quality. On the empty graph and on the three-vertex path, no
    vertex fixed, the call returns the same value, the one inhabitant of
    [unit], while the final qualities are 0 and 2. *)
Lemma optimise_partition_returns_no_quality :
  ~ exists as_f64 : unit -> float,
      forall p : cpm_partition, p ∈ [empty_cpm; path3] ->
        forall (a : unit) (w' : world Z cpm_partition) (p' : cpm_partition),
          optimise_partition 10 0 1 (replicate (vcount (R:=Z) p) false)
            (mkWorld [p] (default_optimiser 42) []) = Ret a w' ->
          heap w' !! 0 = Some p' ->
          as_f64 a = quality (R:=Z) p'.
Proof.
  intros [as_f64 Hq].
  assert (exists w' p', optimise_partition 10 0 1 (replicate (vcount (R:=Z) empty_cpm) false)
            (mkWorld [empty_cpm] (default_optimiser 42) []) = Ret tt w' /\
            heap w' !! 0 = Some p' /\ quality (R:=Z) p' = 0%float)
    as (w1 & p1 & Hr1 & Hp1 & Hq1)
    by (eexists _, _; split; [vm_compute; reflexivity|];
        split; [reflexivity|vm_compute; reflexivity]).
  assert (exists w' p', optimise_partition 10 0 1 (replicate (vcount (R:=Z) path3) false)
            (mkWorld [path3] (default_optimiser 42) []) = Ret tt w' /\
            heap w' !! 0 = Some p' /\ quality (R:=Z) p' = 2%float)
    as (w2 & p2 & Hr2 & Hp2 & Hq2)
    by (eexists _, _; split; [vm_compute; reflexivity|];
        split; [reflexivity|vm_compute; reflexivity]).
  pose proof (Hq empty_cpm ltac:(by left) tt w1 p1 Hr1 Hp1) as H1.
  pose proof (Hq path3 ltac:(by right; left) tt w2 p2 Hr2 Hp2) as H2.
  rewrite Hq1 in H1. rewrite Hq2, H1 in H2.
  apply (f_equal (fun x => PrimFloat.eqb x 2%float)) in H2.
  vm_compute in H2. discriminate.
Qed.

(** ** The communities that are scored *)

Section Candidates.
Context {R G P : Type} `{MutableVertexPartition R G P}.

Lemma scored_consider (p : P) (i c : nat) (s : scan) :
  scored (consider p i c s) = scored s ++ [c].
Proof. unfold consider. by destruct (_ <? _)%float. Qed.

Lemma scored_consider_neigh_comms (p : P) (i comm_from : nat) (s : scan) :
  scored (consider_neigh_comms p i comm_from s) =
  scored s ++ (get_neigh_comm_weights p i comm_from).1.
Proof.
  unfold consider_neigh_comms.
  destruct (get_neigh_comm_weights p i comm_from) as [neigh_comm w]. simpl.
  revert s. induction neigh_comm as [|c l IH]; intros s; simpl.
  - by rewrite app_nil_r.
  - by rewrite IH, scored_consider, <- app_assoc.
Qed.

Lemma scored_consider_all_comms (p : P) (i comm_from : nat) (s : scan) :
  scored (consider_all_comms p i comm_from s) =
  scored s ++ filter (fun c => c ≠ comm_from) (range (n_communities p)).
Proof.
  unfold consider_all_comms. generalize (range (n_communities p)) as l.
  intros l. revert s. induction l as [|c l IH]; intros s; simpl.
  - by rewrite app_nil_r.
  - rewrite IH, filter_cons. case_decide as Hc.
    + by rewrite decide_False by (intros Hne; by apply Hne).
    + by rewrite decide_True, scored_consider, <- app_assoc by done.
Qed.

Lemma scored_consider_empty (o : Optimiser R) (p : P) (i : nat) (s : scan) :
  scored (consider_empty o p i s) = scored s ++ empty_candidate o p.
Proof.
  unfold consider_empty, empty_candidate.
  destruct (consider_empty_community o); simpl; [|by rewrite app_nil_r].
  destruct (_ <? _); [apply scored_consider|by rewrite app_nil_r].
Qed.

End Candidates.

(** C4, as the code has it. For a moving vertex [i], [move_nodes] with the
    [consider_comms] parameter (and [merge_nodes] with it, whose loop body is
    the same) calls [diff_move] on exactly [candidate_comms]: the communities
    [get_neigh_comm_weights] lists for [ALL_NEIGH_COMMS]; for [ALL_COMMS]
    every community number below [n_communities()] other than the vertex's
    own; no existing community for [RAND_COMM] and [RAND_NEIGH_COMM]; and
    then, when [consider_empty_community] is set and [n_communities() <
    vcount()], the new community [n_communities()]. The routine
    [move_nodes_impl] scores the [ALL_NEIGH_COMMS] candidates whatever the
    configured [consider_comms]. *)
Theorem scored_communities
    {R G P : Type} `{MutableVertexPartition R G P}
    (o : Optimiser R) (cc : consider_comms_t) (p : P) (i : nat) :
  scored (move_nodes4_scan o cc p i) = candidate_comms o cc p i /\
  scored (move_nodes_impl_scan o p i) = candidate_comms o ALL_NEIGH_COMMS p i.
Proof.
  unfold move_nodes4_scan, move_nodes_impl_scan, candidate_comms.
  rewrite !scored_consider_empty. split.
  - f_equal. destruct cc; simpl; [by rewrite scored_consider_all_comms
                                  |by rewrite scored_consider_neigh_comms|done|done].
  - f_equal. by rewrite scored_consider_neigh_comms.
Qed.

(** C4, as the claim has it, fails: vertex 1 of the three-vertex path has
    neighbours in communities 0 and 2 and three communities are in use, yet
    under [RAND_NEIGH_COMM] and under [RAND_COMM] no community is scored. *)
Lemma random_modes_score_nothing :
  let o := default_optimiser 42 in
  (get_neigh_comm_weights (R:=Z) path3 1 1).1 = [0; 2] /\
  n_communities (R:=Z) path3 = 3 /\
  ~ (exists c, scored (move_nodes4_scan o RAND_NEIGH_COMM path3 1) = [c]) /\
  ~ (exists c, scored (move_nodes4_scan o RAND_COMM path3 1) = [c]).
Proof.
  intros o. split; [reflexivity|]. split; [reflexivity|].
  split; intros [c Hc]; vm_compute in Hc; discriminate.
Qed.

(** ** The size bound *)

Section SizeBound.
Context {R G P : Type} `{Rng R} `{MutableVertexPartition R G P}.

Lemma shuffled_pass_resized (m : nat)
    (visit : Optimiser R -> P * bool -> nat -> option (P * bool)) (st : Optimiser R * P) :
  (forall o, visit (set_max_comm_size o m) = visit o) ->
  shuffled_pass visit (resized m st) =
  (fun r => (resized m r.1, r.2)) <$> shuffled_pass visit st.
Proof.
  intros Hvisit. unfold shuffled_pass, rng_shuffle, resized. simpl.
  destruct (rng_shuffled (rng st.1) (range (vcount st.2))) as [nodes r'].
  change (with_rng (set_max_comm_size st.1 m) r')
    with (set_max_comm_size (with_rng st.1 r') m).
  rewrite Hvisit. by destruct (for_each_node _ _ _) as [[p b]|].
Qed.

Lemma while_improvement_resized (m : nat) l
    (pass : Optimiser R * P -> option (Optimiser R * P * bool)) fuel :
  (forall st, pass (resized m st) = (fun r => (resized m r.1, r.2)) <$> pass st) ->
  forall st, while_improvement l pass fuel (resized m st) =
             map_state (resized m) (while_improvement l pass fuel st).
Proof.
  intros Hpass. induction fuel as [|fuel IH]; intros st; simpl; [done|].
  rewrite Hpass. destruct (pass st) as [[st1 [|]]|]; simpl; [apply IH|done|done].
Qed.

Lemma merge_nodes4_resized (m : nat) fuel fx cc rfn (st : Optimiser R * P) :
  merge_nodes4 fuel fx cc rfn (resized m st) =
  map_state (resized m) (merge_nodes4 fuel fx cc rfn st).
Proof.
  unfold merge_nodes4, merge_nodes4_loop, bind.
  rewrite while_improvement_resized.
  - by destruct (while_improvement _ _ _ st).
  - intros st1. by apply shuffled_pass_resized.
Qed.

Lemma move_nodes4_resized (m : nat) fx cc rfn (st : Optimiser R * P) :
  move_nodes4 fx cc rfn (resized m st) = map_state (resized m) (move_nodes4 fx cc rfn st).
Proof.
  unfold move_nodes4, move_nodes4_pass.
  rewrite shuffled_pass_resized by done.
  by destruct (shuffled_pass _ st) as [[[o p] b]|].
Qed.

End SizeBound.

(** C6, as the code has it. No size bound is enforced: the forms of
    [move_nodes] and [merge_nodes] that take [max_comm_size] do not look at
    it, nor at the optimiser's own [max_comm_size]. Whatever the argument
    and whatever value [m] the setting has, they return the value, and leave
    the partition, of the 4-argument form run without them; so no move is
    turned down for the size of its target. *)
Theorem max_comm_size_is_ignored
    {R G P : Type} `{Rng R} `{MutableVertexPartition R G P}
    (fuel : nat) (is_membership_fixed : list bool) (cc : consider_comms_t)
    (renumber_fixed_nodes : bool) (max_comm_size m : nat)
    (o : Optimiser R) (p : P) :
  move_nodes5 is_membership_fixed cc renumber_fixed_nodes max_comm_size
    (set_max_comm_size o m, p) =
  map_state (resized m)
    (move_nodes4 is_membership_fixed cc renumber_fixed_nodes (o, p)) /\
  merge_nodes5 fuel is_membership_fixed cc renumber_fixed_nodes max_comm_size
    (set_max_comm_size o m, p) =
  map_state (resized m)
    (merge_nodes4 fuel is_membership_fixed cc renumber_fixed_nodes (o, p)).
Proof.
  split.
  - unfold move_nodes5. apply (move_nodes4_resized m _ _ _ (o, p)).
  - unfold merge_nodes5. apply (merge_nodes4_resized m _ _ _ _ (o, p)).
Qed.

(** C6, as the claim has it, fails: on the three-vertex path, every vertex
    on its own and none fixed, both forms called with [max_comm_size = 1] put
    the three vertices into community 1, of size 3. *)
Lemma size_bound_is_not_kept :
  let st := (rng_init (default_optimiser 42), path3) in
  let is_membership_fixed := [false; false; false] in
  Forall (fun c => csize (R:=Z) path3 c <= 1) (range 3) /\
  (exists q st', move_nodes5 is_membership_fixed ALL_NEIGH_COMMS true 1 st = Ret q st' /\
                 ~ csize (R:=Z) st'.2 1 <= 1) /\
  (exists q st', merge_nodes5 10 is_membership_fixed ALL_NEIGH_COMMS true 1 st = Ret q st' /\
                 ~ csize (R:=Z) st'.2 1 <= 1).
Proof.
  intros st is_membership_fixed. split; [repeat constructor|].
  split; eexists _, _; (split; [vm_compute; reflexivity|vm_compute; lia]).
Qed.

(** ** The single pass of [move_nodes] with [consider_comms] *)

Lemma one_pass_is_not_enough_all :
  forallb one_pass_is_not_enough (permutations (range 5)) = true.
Proof. vm_compute. reflexivity. Qed.

Lemma move_nodes4_visit_cpm {R1 R2 : Type} (o1 : Optimiser R1) (o2 : Optimiser R2)
    fx cc (st : cpm_partition * bool) (i : nat) :
  consider_empty_community o1 = consider_empty_community o2 ->
  move_nodes4_visit o1 fx cc st i = move_nodes4_visit o2 fx cc st i.
Proof.
  intros Heq. unfold move_nodes4_visit, move_nodes4_scan, consider_empty.
  rewrite Heq. reflexivity.
Qed.

Lemma pass_on_cpm {R : Type} (o : Optimiser R) (order : list nat) :
  consider_empty_community o = false ->
  forall st : cpm_partition * bool,
    for_each_node (move_nodes4_visit o (replicate 5 false) ALL_NEIGH_COMMS) order st =
    for_each_node (move_nodes4_visit (default_optimiser 0) (replicate 5 false) ALL_NEIGH_COMMS)
      order st.
Proof.
  intros Hce. induction order as [|i l IH]; intros st; cbn [for_each_node]; [done|].
  rewrite (move_nodes4_visit_cpm o (default_optimiser 0)) by done.
  destruct (move_nodes4_visit _ _ _ _ _); [apply IH|done].
Qed.

Lemma move_nodes4_pass_cpm {R : Type} `{Rng R} `{!RngLaws R}
    (o : Optimiser R) (p : cpm_partition) :
  consider_empty_community o = false ->
  cg_vcount (cpm_g p) = 5 ->
  exists order o',
    order ∈ permutations (range 5) /\
    consider_empty_community o' = false /\
    forall p1 b1,
      pass_on order p = Some (p1, b1) ->
      move_nodes4_pass (replicate 5 false) ALL_NEIGH_COMMS (o, p) = Some (o', p1, b1).
Proof.
  intros Hce Hn. unfold move_nodes4_pass, shuffled_pass, rng_shuffle, vcount.
  cbn [fst snd g g_vcount CPMVertexPartition]. rewrite Hn.
  pose proof (rng_shuffled_perm (rng o) (range 5)) as Hperm.
  symmetry in Hperm. apply permutations_Permutation in Hperm.
  destruct (rng_shuffled (rng o) (range 5)) as [order r'].
  exists order, (with_rng o r'). split; [exact Hperm|].
  split; [done|]. intros p1 b1 Hon.
  rewrite (pass_on_cpm (with_rng o r') order Hce). fold (pass_on order p).
  by rewrite Hon.
Qed.

Lemma visits_graph {R G P : Type} `{MutableVertexPartition R G P} `{!PartitionLaws R G P}
    fx (f : P * bool -> nat -> option (P * bool)) (l : list nat) :
  visit_shape fx f ->
  forall st st', for_each_node f l st = Some st' -> g st'.1 = g st.1.
Proof.
  intros Hf. induction l as [|i l IH]; intros st st'; simpl; [by intros [= <-]|].
  destruct (f st i) as [st1|] eqn:Hst1; [|done]. intros Hrest.
  rewrite (IH _ _ Hrest). by apply (visit_graph fx f st st1 i).
Qed.

(** C2 on the 4-argument [move_nodes]: started on [five] with
    [ALL_NEIGH_COMMS], no vertex fixed and no empty community, it returns
    after its one pass, in which a vertex was moved, and leaves a partition
    on which a further pass moves a vertex again, whatever the generator.
    So it does not repeat passes until a pass makes no move. *)
Theorem move_nodes4_stops_after_one_pass
    {R : Type} `{Rng R} `{!RngLaws R} (o : Optimiser R) :
  consider_empty_community o = false ->
  let is_membership_fixed := replicate 5 false in
  exists q o1 p1 o2 p2,
    move_nodes4 is_membership_fixed ALL_NEIGH_COMMS true (o, five) = Ret q (o1, p1) /\
    q = (quality (R:=R) p1 - quality (R:=R) five)%float /\
    move_nodes4_pass is_membership_fixed ALL_NEIGH_COMMS (o, five) = Some (o1, p1, true) /\
    move_nodes4_pass is_membership_fixed ALL_NEIGH_COMMS (o1, p1) = Some (o2, p2, true).
Proof.
  intros Hce is_membership_fixed. subst is_membership_fixed.
  destruct (move_nodes4_pass_cpm o five Hce eq_refl) as (order & o1 & Hin & Hce1 & Hpass).
  pose proof one_pass_is_not_enough_all as Hall.
  rewrite forallb_forall in Hall. specialize (Hall order).
  rewrite <- list_elem_of_In in Hall. specialize (Hall Hin).
  unfold one_pass_is_not_enough in Hall.
  destruct (pass_on order five) as [[p1 b1]|] eqn:Hon; [|discriminate Hall].
  assert (cg_vcount (cpm_g p1) = 5) as Hn1.
  { unfold pass_on in Hon.
    exact (f_equal cg_vcount
             (visits_graph (R:=Z) (replicate 5 false) _ order
                (move_nodes4_visit_shape (default_optimiser 0) (replicate 5 false)
                   ALL_NEIGH_COMMS)
                (five, false) (p1, b1) Hon)). }
  apply andb_true_iff in Hall as [-> Hall].
  destruct (move_nodes4_pass_cpm o1 p1 Hce1 Hn1) as (order2 & o2 & Hin2 & _ & Hpass2).
  rewrite forallb_forall in Hall. apply list_elem_of_In in Hin2.
  pose proof (Hall order2 Hin2) as Hmoves. unfold pass_moves in Hmoves.
  destruct (pass_on order2 p1) as [[p2 b2]|]; [|discriminate Hmoves].
  cbn beta iota in Hmoves. subst b2.
  pose proof (Hpass p1 true eq_refl) as Hfirst.
  exists (quality (R:=R) p1 - quality (R:=R) five)%float, o1, p1, o2, p2.
  split; [|split; [reflexivity|split; [exact Hfirst|exact (Hpass2 p2 true eq_refl)]]].
  unfold move_nodes4. rewrite Hfirst. reflexivity.
Qed.

(** With the generator seeded by 42. *)
Lemma move_nodes4_stops_after_one_pass_witness :
  let is_membership_fixed := replicate 5 false in
  let o := rng_init (default_optimiser 42) in
  exists q o1 p1 o2 p2,
    move_nodes4 is_membership_fixed ALL_NEIGH_COMMS true (o, five) = Ret q (o1, p1) /\
    q = (quality (R:=Z) p1 - quality (R:=Z) five)%float /\
    move_nodes4_pass is_membership_fixed ALL_NEIGH_COMMS (o, five) = Some (o1, p1, true) /\
    move_nodes4_pass is_membership_fixed ALL_NEIGH_COMMS (o1, p1) = Some (o2, p2, true).
Proof.
  intros is_membership_fixed o.
  pose proof (move_nodes4_stops_after_one_pass o) as Hw.
  apply Hw. reflexivity.
Defined.

(** ** [move_nodes] without [consider_comms] does run until a clean pass *)

Lemma while_improvement_Ret {St} l (pass : St -> option (St * bool)) fuel :
  forall st st', while_improvement l pass fuel st = Ret tt st' ->
                 passes_until_clean pass st st'.
Proof.
  induction fuel as [|fuel IH]; intros st st'; simpl; [done|].
  destruct (pass st) as [[st1 [|]]|] eqn:Hpass; [| |done].
  - intros Hrest. eapply moved_pass; [done|]. by apply IH.
  - intros [= <-]. by apply clean_pass.
Qed.

Lemma while_improvement_enough {St} l (pass : St -> option (St * bool)) (st st' : St) :
  passes_until_clean pass st st' ->
  exists fuel0, forall fuel, fuel0 <= fuel -> while_improvement l pass fuel st = Ret tt st'.
Proof.
  induction 1 as [st st' Hpass|st st1 st' Hpass _ [fuel0 IH]].
  - exists 1. intros [|fuel] Hfuel; [lia|]. simpl. by rewrite Hpass.
  - exists (S fuel0). intros [|fuel] Hfuel; [lia|]. simpl. rewrite Hpass.
    apply IH. lia.
Qed.

(** The 2-argument [move_nodes] returns exactly when its passes reach one
    that makes no move (given fuel enough for them), and what it returns is
    the quality afterwards minus the quality before. *)
Lemma move_nodes_runs_until_clean
    {R G P : Type} `{Rng R} `{MutableVertexPartition R G P}
    (is_membership_fixed : list bool) (st st' : Optimiser R * P) :
  (forall fuel q,
     move_nodes fuel is_membership_fixed st = Ret q st' ->
     passes_until_clean (move_nodes_impl_pass is_membership_fixed) st st' /\
     q = (quality st'.2 - quality st.2)%float) /\
  (passes_until_clean (move_nodes_impl_pass is_membership_fixed) st st' ->
   exists fuel0, forall fuel, fuel0 <= fuel ->
     move_nodes fuel is_membership_fixed st =
     Ret (quality st'.2 - quality st.2)%float st').
Proof.
  split.
  - intros fuel q Hret. unfold move_nodes in Hret.
    apply bind_Ret in Hret as ([] & st1 & Hloop & [= <- <-]).
    split; [|done]. by apply while_improvement_Ret in Hloop.
  - intros Hclean.
    destruct (while_improvement_enough InMoveNodes _ _ _ Hclean) as [fuel0 Hfuel].
    exists fuel0. intros fuel Hle. unfold move_nodes, bind, move_nodes_impl.
    by rewrite (Hfuel fuel Hle).
Qed.

(** ** A vertex can be moved in two passes of one [merge_nodes] call *)

(** C8, as the claim has it, fails: nothing is pinned between the runs of the
    [for] loop that one call of [merge_nodes] makes. On the three-vertex
    path, every vertex on its own and none fixed, with the generator seeded
    by 3, the first run moves vertex 0 out of its singleton into community 1;
    it moved a vertex, so [while (improvement)] runs the [for] loop again,
    and that run moves vertex 0 on to community 2. The third run moves
    nothing and the call returns. *)
Lemma merge_nodes_moves_again_in_the_next_pass :
  let is_membership_fixed := [false; false; false] in
  let st0 := (rng_init (default_optimiser 3), path3) in
  exists (st1 st2 st3 : Optimiser Z * cpm_partition) (q : float),
    merge_nodes_pass is_membership_fixed st0 = Some (st1, true) /\
    merge_nodes_pass is_membership_fixed st1 = Some (st2, true) /\
    merge_nodes_pass is_membership_fixed st2 = Some (st3, false) /\
    merge_nodes 10 is_membership_fixed st0 = Ret q st3 /\
    membership (R:=Z) st0.2 = [0; 1; 2] /\
    membership (R:=Z) st1.2 !! 0 = Some 1 /\
    membership (R:=Z) st2.2 !! 0 = Some 2 /\
    membership (R:=Z) st2.2 !! 0 ≠ membership (R:=Z) st1.2 !! 0.
Proof.
  intros is_membership_fixed st0.
  eexists _, _, _, _.
  split; [vm_compute; reflexivity|]. split; [vm_compute; reflexivity|].
  split; [vm_compute; reflexivity|]. split; [vm_compute; reflexivity|].
  split; [reflexivity|]. split; [reflexivity|]. split; [reflexivity|].
  intros Heq. vm_compute in Heq. discriminate Heq.
Qed.

(** * Further properties of the routines *)

(** ** The order of doubles *)

Lemma SFcompare_lt_trans (x y z : spec_float) :
  SFcompare x y = Some Lt -> SFcompare y z = Some Lt -> SFcompare x z = Some Lt.
Proof.
  destruct x as [sx|sx| |sx mx ex], y as [sy|sy| |sy my ey], z as [sz|sz| |sz mz ez];
    simpl; try discriminate; try reflexivity;
    repeat match goal with s : bool |- _ => destruct s end;
    simpl; try discriminate; try reflexivity.
  all: rewrite ?Pos.compare_cont_spec; simpl.
  all: repeat match goal with
       | |- context [(?a ?= ?b)%Z] => destruct (Z.compare_spec a b)
       | |- context [(?a ?= ?b)%positive] => destruct (Pos.compare_spec a b)
       end; simpl; try discriminate; try reflexivity; intros; subst; try lia.
Qed.

Lemma SFcompare_lt_eq_trans (x y z : spec_float) :
  SFcompare x y = Some Lt -> SFcompare y z = Some Eq -> SFcompare x z = Some Lt.
Proof.
  destruct x as [sx|sx| |sx mx ex], y as [sy|sy| |sy my ey], z as [sz|sz| |sz mz ez];
    simpl; try discriminate; try reflexivity;
    repeat match goal with s : bool |- _ => destruct s end;
    simpl; try discriminate; try reflexivity.
  all: rewrite ?Pos.compare_cont_spec; simpl.
  all: repeat match goal with
       | |- context [(?a ?= ?b)%Z] => destruct (Z.compare_spec a b)
       | |- context [(?a ?= ?b)%positive] => destruct (Pos.compare_spec a b)
       end; simpl; try discriminate; try reflexivity; intros; subst; try lia.
Qed.

Lemma SFcompare_irrefl (x : spec_float) : SFcompare x x <> Some Lt.
Proof.
  destruct x as [s|s| |s m e]; simpl; try discriminate; try (by destruct s).
  rewrite Z.compare_refl, Pos.compare_cont_spec, Pos.compare_refl.
  by destruct s.
Qed.

(** [a < b] and [b < c] give [a < c], NaN never being below or above. *)
Lemma ltb_trans (a b c : float) :
  (a <? b)%float = true -> (b <? c)%float = true -> (a <? c)%float = true.
Proof.
  rewrite !ltb_spec. unfold SFltb.
  destruct (SFcompare (Prim2SF a) (Prim2SF b)) as [[]|] eqn:Hab; try discriminate.
  destruct (SFcompare (Prim2SF b) (Prim2SF c)) as [[]|] eqn:Hbc; try discriminate.
  intros _ _. by rewrite (SFcompare_lt_trans _ _ _ Hab Hbc).
Qed.

Lemma ltb_leb_trans (a b c : float) :
  (a <? b)%float = true -> (b <=? c)%float = true -> (a <? c)%float = true.
Proof.
  rewrite !ltb_spec, leb_spec. unfold SFltb, SFleb.
  destruct (SFcompare (Prim2SF a) (Prim2SF b)) as [[]|] eqn:Hab; try discriminate.
  destruct (SFcompare (Prim2SF b) (Prim2SF c)) as [[]|] eqn:Hbc; try discriminate.
  - intros _ _. by rewrite (SFcompare_lt_eq_trans _ _ _ Hab Hbc).
  - intros _ _. by rewrite (SFcompare_lt_trans _ _ _ Hab Hbc).
Qed.

Lemma ltb_irrefl (a : float) : (a <? a)%float = false.
Proof.
  rewrite ltb_spec. unfold SFltb.
  pose proof (SFcompare_irrefl (Prim2SF a)) as Hirr.
  by destruct (SFcompare (Prim2SF a) (Prim2SF a)) as [[]|].
Qed.

(** ** The choice a scan makes *)

Section Scans.
Context {R G P : Type} `{MutableVertexPartition R G P}.

Lemma scan_ok_init (p : P) (i comm_from : nat) : scan_ok p i comm_from (scan_init comm_from).
Proof. split; [by intros c Hc; apply elem_of_nil in Hc|]. by left. Qed.

Lemma scan_ok_consider (p : P) (i comm_from c : nat) (s : scan) :
  scan_ok p i comm_from s -> scan_ok p i comm_from (consider p i c s).
Proof.
  intros [Hmax Hchoice]. unfold consider.
  destruct (max_q_gain s <? diff_move p i c)%float eqn:Hlt; simpl.
  - split.
    + intros c' Hc'. apply elem_of_app in Hc' as [Hc'|Hc'].
      * destruct (diff_move p i c <? diff_move p i c')%float eqn:Hc2; [|done].
        pose proof (Hmax c' Hc') as Hm. by rewrite (ltb_trans _ _ _ Hlt Hc2) in Hm.
      * apply list_elem_of_singleton in Hc' as ->. apply ltb_irrefl.
    + right. split; [|split; [done|]].
      * destruct Hchoice as [[_ H0]|[Hpos _]]; [by rewrite <- H0|].
        by apply (ltb_trans _ _ _ Hpos).
      * exists (scored s), []. split; [done|]. intros c' Hc'.
        destruct (diff_move p i c <=? diff_move p i c')%float eqn:Hc2; [|done].
        pose proof (Hmax c' Hc') as Hm. by rewrite (ltb_leb_trans _ _ _ Hlt Hc2) in Hm.
  - split.
    + intros c' Hc'. apply elem_of_app in Hc' as [Hc'|Hc']; [by apply Hmax|].
      by apply list_elem_of_singleton in Hc' as ->.
    + destruct Hchoice as [Hnone|(Hpos & Hgain & l1 & l2 & Hsplit & Hfirst)]; [by left|].
      right. split; [done|]. split; [done|].
      exists l1, (l2 ++ [c]). split; [|done]. by rewrite Hsplit, <- app_assoc.
Qed.

Lemma scan_ok_neigh_comms (p : P) (i comm_from : nat) (s : scan) :
  scan_ok p i comm_from s -> scan_ok p i comm_from (consider_neigh_comms p i comm_from s).
Proof.
  unfold consider_neigh_comms.
  destruct (get_neigh_comm_weights p i comm_from) as [neigh_comm w].
  revert s. induction neigh_comm as [|c l IH]; intros s Hs; simpl; [done|].
  by apply IH, scan_ok_consider.
Qed.

Lemma scan_ok_all_comms (p : P) (i comm_from : nat) (s : scan) :
  scan_ok p i comm_from s -> scan_ok p i comm_from (consider_all_comms p i comm_from s).
Proof.
  unfold consider_all_comms. generalize (range (n_communities p)) as l.
  intros l. revert s. induction l as [|c l IH]; intros s Hs; simpl; [done|].
  apply IH. case_decide; [done|]. by apply scan_ok_consider.
Qed.

Lemma scan_ok_empty (o : Optimiser R) (p : P) (i comm_from : nat) (s : scan) :
  scan_ok p i comm_from s -> scan_ok p i comm_from (consider_empty o p i s).
Proof.
  intros Hs. unfold consider_empty.
  destruct (consider_empty_community o); [|done].
  destruct (_ <? _); [|done]. by apply scan_ok_consider.
Qed.

End Scans.

(** X1. Whatever communities a loop body scores for a vertex, the locals
    [comm_to] and [max_q_gain] it ends with satisfy [scan_ok]: no scored
    community has a gain above [max_q_gain]; and either nothing was chosen
    ([comm_to] is the vertex's community and [max_q_gain] is 0, so no scored
    community has a positive gain), or [comm_to] is a scored community whose
    gain is [max_q_gain], strictly positive, and the first in scoring order
    to reach it. This holds for the scans of [move_nodes_impl], of the forms
    with [consider_comms] and of [merge_nodes]. *)
Theorem scans_choose_first_best
    {R G P : Type} `{MutableVertexPartition R G P}
    (o : Optimiser R) (cc : consider_comms_t) (p : P) (i : nat) :
  scan_ok p i (membership_at p i) (move_nodes_impl_scan o p i) /\
  scan_ok p i (membership_at p i) (move_nodes4_scan o cc p i) /\
  scan_ok p i (membership_at p i) (merge_nodes_scan o p i).
Proof.
  unfold move_nodes_impl_scan, move_nodes4_scan, merge_nodes_scan.
  split; [|split].
  - apply scan_ok_empty, scan_ok_neigh_comms, scan_ok_init.
  - apply scan_ok_empty. unfold consider_by.
    destruct cc; try apply scan_ok_init.
    + apply scan_ok_all_comms, scan_ok_init.
    + apply scan_ok_neigh_comms, scan_ok_init.
  - apply scan_ok_empty. case_decide.
    + apply scan_ok_all_comms, scan_ok_neigh_comms, scan_ok_init.
    + apply scan_ok_neigh_comms, scan_ok_init.
Qed.

(** ** Every move is to the best scored community, at a positive gain *)

Section Moves.
Context {R G P : Type} `{MutableVertexPartition R G P}.

Lemma scan_ok_chosen (p : P) (i comm_from : nat) (s : scan) :
  scan_ok p i comm_from s ->
  comm_to s ≠ comm_from ->
  comm_to s ∈ scored s /\
  (0 <? max_q_gain s)%float = true /\
  (0 <? diff_move p i (comm_to s))%float = true /\
  forall c', c' ∈ scored s -> (diff_move p i (comm_to s) <? diff_move p i c')%float = false.
Proof.
  intros [Hmax [[Hnone _]|(Hpos & Hgain & l1 & l2 & Hsplit & _)]] Hne; [done|].
  split; [rewrite Hsplit; apply elem_of_app; right; by left|].
  split; [done|]. rewrite <- Hgain. done.
Qed.

Lemma move_nodes_impl_visit_best o fx :
  moves_to_best fx (move_nodes_impl_scan o) (move_nodes_impl_visit o fx).
Proof.
  intros p b i. unfold move_nodes_impl_visit. simpl.
  destruct (is_fixed_at fx i) as [[|]|]; [by left| |done].
  case_decide as Hc; [by left|]. right. split; [done|].
  pose proof (scan_ok_empty o p i _ _
    (scan_ok_neigh_comms p i _ _ (scan_ok_init p i (membership_at p i)))) as Hok.
  destruct (scan_ok_chosen p i _ _ Hok Hc) as (Hin & _ & Hpos & Hbest).
  by exists (comm_to (move_nodes_impl_scan o p i)).
Qed.

Lemma tested_visit_best (scan_of : P -> nat -> scan) (p : P) (b : bool) (i : nat) :
  scan_ok p i (membership_at p i) (scan_of p i) ->
  (if negb (bool_decide (comm_to (scan_of p i) = membership_at p i))
      && (0 <? max_q_gain (scan_of p i))%float
   then Some (move_node p i (comm_to (scan_of p i)), true) else Some (p, b))
  = Some (p, b) \/
  exists c,
    (if negb (bool_decide (comm_to (scan_of p i) = membership_at p i))
        && (0 <? max_q_gain (scan_of p i))%float
     then Some (move_node p i (comm_to (scan_of p i)), true) else Some (p, b))
    = Some (move_node p i c, true) /\
    c ≠ membership_at p i /\
    c ∈ scored (scan_of p i) /\
    (0 <? diff_move p i c)%float = true /\
    forall c', c' ∈ scored (scan_of p i) ->
               (diff_move p i c <? diff_move p i c')%float = false.
Proof.
  intros Hok. case_bool_decide as Hc; simpl; [by left|].
  destruct (0 <? _)%float; [|by left]. right.
  destruct (scan_ok_chosen p i _ _ Hok Hc) as (Hin & _ & Hpos & Hbest).
  by exists (comm_to (scan_of p i)).
Qed.

End Moves.

(** X2. A loop body of [move_nodes_impl], of [move_nodes] and [merge_nodes]
    with [consider_comms], and of [merge_nodes], when it moves the vertex it
    visits, moves a vertex that is not fixed, to a community other than its
    own, which it scored, whose [diff_move] gain is strictly positive, and
    which no other scored community beats. It is undefined exactly when
    [is_membership_fixed] has no entry for the vertex. *)
Theorem moves_go_to_the_best_scored
    {R G P : Type} `{MutableVertexPartition R G P}
    (o : Optimiser R) (is_membership_fixed : list bool) (cc : consider_comms_t) :
  moves_to_best is_membership_fixed (move_nodes_impl_scan o)
    (move_nodes_impl_visit o is_membership_fixed) /\
  moves_to_best is_membership_fixed (move_nodes4_scan o cc)
    (move_nodes4_visit o is_membership_fixed cc) /\
  moves_to_best is_membership_fixed (move_nodes4_scan o cc)
    (merge_nodes4_visit o is_membership_fixed cc) /\
  moves_to_best is_membership_fixed (merge_nodes_scan o)
    (merge_nodes_visit o is_membership_fixed).
Proof.
  split; [apply move_nodes_impl_visit_best|].
  assert (forall p i, scan_ok p i (membership_at p i) (move_nodes4_scan o cc p i)) as H4.
  { intros p i. apply scan_ok_empty. unfold consider_by.
    destruct cc; try apply scan_ok_init.
    - apply scan_ok_all_comms, scan_ok_init.
    - apply scan_ok_neigh_comms, scan_ok_init. }
  assert (forall p i, scan_ok p i (membership_at p i) (merge_nodes_scan o p i)) as Hm.
  { intros p i. apply scan_ok_empty. case_decide.
    - apply scan_ok_all_comms, scan_ok_neigh_comms, scan_ok_init.
    - apply scan_ok_neigh_comms, scan_ok_init. }
  split; [|split]; intros p b i.
  - unfold move_nodes4_visit. simpl.
    destruct (is_fixed_at is_membership_fixed i) as [[|]|]; [by left| |done].
    destruct (tested_visit_best (move_nodes4_scan o cc) p b i (H4 p i))
      as [Hstay|Hmove]; [by left|by right].
  - unfold merge_nodes4_visit. simpl.
    destruct (is_fixed_at is_membership_fixed i) as [[|]|]; [by left| |done].
    destruct (tested_visit_best (move_nodes4_scan o cc) p b i (H4 p i))
      as [Hstay|Hmove]; [by left|by right].
  - unfold merge_nodes_visit. simpl.
    destruct (is_fixed_at is_membership_fixed i) as [[|]|]; [by left| |done].
    destruct (tested_visit_best (merge_nodes_scan o) p b i (Hm p i))
      as [Hstay|Hmove]; [by left|by right].
Qed.

(** ** The loop bodies agree *)

Section Agreement.
Context {R G P : Type} `{Rng R} `{MutableVertexPartition R G P}.

Lemma move_nodes4_visit_neigh o fx (st : P * bool) (i : nat) :
  move_nodes4_visit o fx ALL_NEIGH_COMMS st i = move_nodes_impl_visit o fx st i.
Proof.
  unfold move_nodes4_visit, move_nodes_impl_visit.
  destruct (is_fixed_at fx i) as [[|]|]; [done| |done].
  change (move_nodes4_scan o ALL_NEIGH_COMMS st.1 i) with (move_nodes_impl_scan o st.1 i).
  pose proof (scan_ok_empty o st.1 i _ _
    (scan_ok_neigh_comms st.1 i _ _ (scan_ok_init st.1 i (membership_at st.1 i)))) as Hok.
  fold (move_nodes_impl_scan o st.1 i) in Hok.
  case_decide as Hc.
  - by rewrite bool_decide_eq_true_2.
  - rewrite bool_decide_eq_false_2 by done.
    destruct (scan_ok_chosen st.1 i _ _ Hok Hc) as (_ & -> & _). done.
Qed.

Lemma merge_nodes4_visit_neigh o fx (st : P * bool) (i : nat) :
  merge_nodes4_visit o fx ALL_NEIGH_COMMS st i = move_nodes_impl_visit o fx st i.
Proof. apply move_nodes4_visit_neigh. Qed.

Lemma merge_nodes_visit_neigh o fx (st : P * bool) (i : nat) :
  consider_comms o ≠ ALL_COMMS ->
  merge_nodes_visit o fx st i = move_nodes_impl_visit o fx st i.
Proof.
  intros Hcc. rewrite <- move_nodes4_visit_neigh.
  unfold merge_nodes_visit, move_nodes4_visit.
  replace (merge_nodes_scan o st.1 i) with (move_nodes4_scan o ALL_NEIGH_COMMS st.1 i); [done|].
  unfold merge_nodes_scan, move_nodes4_scan, consider_by. by rewrite decide_False.
Qed.

Lemma for_each_node_ext (f1 f2 : P * bool -> nat -> option (P * bool)) (l : list nat) :
  (forall st i, f1 st i = f2 st i) ->
  forall st, for_each_node f1 l st = for_each_node f2 l st.
Proof.
  intros Hf. induction l as [|i l IH]; intros st; simpl; [done|].
  rewrite Hf. destruct (f2 st i); [apply IH|done].
Qed.

(** Two loop bodies that agree under optimisers satisfying [Q], a condition
    on the settings, give the same pass. *)
Lemma shuffled_pass_ext (Q : Optimiser R -> Prop)
    (visit1 visit2 : Optimiser R -> P * bool -> nat -> option (P * bool))
    (st : Optimiser R * P) :
  (forall o r, Q o -> Q (with_rng o r)) ->
  (forall o st i, Q o -> visit1 o st i = visit2 o st i) ->
  Q st.1 ->
  shuffled_pass visit1 st = shuffled_pass visit2 st /\
  forall st1 b, shuffled_pass visit1 st = Some (st1, b) -> Q st1.1.
Proof.
  intros HQ Hvisit Hst. unfold shuffled_pass, rng_shuffle.
  destruct (rng_shuffled (rng st.1) (range (vcount st.2))) as [nodes r'].
  rewrite (for_each_node_ext _ (visit2 (with_rng st.1 r')))
    by (intros st1 i; apply Hvisit, HQ, Hst).
  split; [done|]. intros st1 b.
  destruct (for_each_node _ _ _) as [[p b']|]; [|done].
  intros [= <- _]. simpl. by apply HQ.
Qed.

Lemma while_improvement_Ret_ext {St} (Inv : St -> Prop) l1 l2
    (pass1 pass2 : St -> option (St * bool)) fuel :
  (forall st, Inv st ->
     pass1 st = pass2 st /\ forall st1 b, pass1 st = Some (st1, b) -> Inv st1) ->
  forall st st', Inv st ->
    (while_improvement l1 pass1 fuel st = Ret tt st' <->
     while_improvement l2 pass2 fuel st = Ret tt st').
Proof.
  intros Hpass. induction fuel as [|fuel IH]; intros st st' Hst; simpl; [done|].
  destruct (Hpass st Hst) as [Heq Hinv]. rewrite <- Heq.
  destruct (pass1 st) as [[st1 [|]]|]; [apply IH; by eapply Hinv|done|done].
Qed.

Lemma quality_delta_Ret (m : M (Optimiser R * P) unit) (st st' : Optimiser R * P)
    (q0 q : float) :
  (do _ <- m; fun st1 => Ret (quality st1.2 - q0)%float st1) st = Ret q st' <->
  m st = Ret tt st' /\ q = (quality st'.2 - q0)%float.
Proof.
  unfold bind. destruct (m st) as [[] st1|msg st1| |l st1]; split; try done.
  - by intros [= <- <-].
  - by intros [[= <-] ->].
  - by intros [? _].
  - by intros [? _].
  - by intros [? _].
Qed.

End Agreement.

(** X3. For the neighbour communities the routines are one routine: a pass
    of [move_nodes] or of [merge_nodes] with [consider_comms =
    ALL_NEIGH_COMMS] is a pass of [move_nodes_impl] (the extra test
    [max_q_gain > 0] never changes the decision), so this [merge_nodes]
    returns what the 2-argument [move_nodes] returns; and so does the
    2-argument [merge_nodes] unless the optimiser is set to [ALL_COMMS]. *)
Theorem merge_nodes_is_move_nodes
    {R G P : Type} `{Rng R} `{MutableVertexPartition R G P}
    (is_membership_fixed : list bool) (st : Optimiser R * P) :
  (move_nodes4_pass is_membership_fixed ALL_NEIGH_COMMS st =
     move_nodes_impl_pass is_membership_fixed st /\
   merge_nodes4_pass is_membership_fixed ALL_NEIGH_COMMS st =
     move_nodes_impl_pass is_membership_fixed st) /\
  (forall fuel rfn q st',
     merge_nodes4 fuel is_membership_fixed ALL_NEIGH_COMMS rfn st = Ret q st' <->
     move_nodes fuel is_membership_fixed st = Ret q st') /\
  (consider_comms st.1 ≠ ALL_COMMS ->
   forall fuel q st',
     merge_nodes fuel is_membership_fixed st = Ret q st' <->
     move_nodes fuel is_membership_fixed st = Ret q st').
Proof.
  assert (forall st1 : Optimiser R * P,
            merge_nodes4_pass is_membership_fixed ALL_NEIGH_COMMS st1 =
            move_nodes_impl_pass is_membership_fixed st1) as H4.
  { intros st1.
    apply (shuffled_pass_ext (fun _ => True)); [done| |done].
    intros o st2 i _. apply merge_nodes4_visit_neigh. }
  split; [split; [|apply H4]|split].
  - apply (shuffled_pass_ext (fun _ => True)); [done| |done].
    intros o st2 i _. apply move_nodes4_visit_neigh.
  - intros fuel rfn q st'. unfold merge_nodes4, move_nodes.
    rewrite !quality_delta_Ret. unfold merge_nodes4_loop, move_nodes_impl.
    by rewrite (while_improvement_Ret_ext (fun _ => True) InMergeNodes InMoveNodes
                  _ (move_nodes_impl_pass is_membership_fixed) fuel
                  (fun st1 _ => conj (H4 st1) (fun _ _ _ => I)) st st' I).
  - intros Hcc fuel q st'. unfold merge_nodes, move_nodes.
    rewrite !quality_delta_Ret. unfold merge_nodes_loop, move_nodes_impl.
    rewrite (while_improvement_Ret_ext (fun st1 => consider_comms st1.1 ≠ ALL_COMMS)
               InMergeNodes InMoveNodes
               (merge_nodes_pass is_membership_fixed)
               (move_nodes_impl_pass is_membership_fixed) fuel); [done| |done].
    intros st1 Hst1.
    apply (shuffled_pass_ext (fun o => consider_comms o ≠ ALL_COMMS)); [done| |done].
    intros o st2 i Ho. by apply merge_nodes_visit_neigh.
Qed.

(** On the three-vertex path, no vertex fixed, with the optimiser set to
    [ALL_NEIGH_COMMS]: the three routines return the same value and leave the
    same state. *)
Lemma merge_nodes_is_move_nodes_witness :
  let st := (default_optimiser 42, path3) in
  let is_membership_fixed := [false; false; false] in
  exists q st',
    move_nodes 10 is_membership_fixed st = Ret q st' /\
    merge_nodes4 10 is_membership_fixed ALL_NEIGH_COMMS true st = Ret q st' /\
    merge_nodes 10 is_membership_fixed st = Ret q st'.
Proof.
  intros st is_membership_fixed.
  assert (exists q st', move_nodes 10 is_membership_fixed st = Ret q st')
    as (q & st' & Hmove) by (eexists _, _; vm_compute; reflexivity).
  destruct (merge_nodes_is_move_nodes is_membership_fixed st) as (_ & H4 & H2).
  assert (consider_comms st.1 ≠ ALL_COMMS) as Hcc by (intros Heq; discriminate Heq).
  exists q, st'. split; [exact Hmove|]. split.
  - exact (proj2 (H4 10 true q st') Hmove).
  - exact (proj2 (H2 Hcc 10 q st') Hmove).
Defined.

(** X4. [merge_nodes], with and without [consider_comms], returns exactly
    when its passes reach one that makes no move (given fuel enough for
    them), in the state that pass leaves, and what it returns then is the
    quality afterwards minus the quality before. *)
Theorem merge_nodes_runs_until_clean
    {R G P : Type} `{Rng R} `{MutableVertexPartition R G P}
    (is_membership_fixed : list bool) (cc : consider_comms_t) (rfn : bool)
    (st st' : Optimiser R * P) :
  ((forall fuel q,
      merge_nodes fuel is_membership_fixed st = Ret q st' ->
      passes_until_clean (merge_nodes_pass is_membership_fixed) st st' /\
      q = (quality st'.2 - quality st.2)%float) /\
   (passes_until_clean (merge_nodes_pass is_membership_fixed) st st' ->
    exists fuel0, forall fuel, fuel0 <= fuel ->
      merge_nodes fuel is_membership_fixed st =
      Ret (quality st'.2 - quality st.2)%float st')) /\
  ((forall fuel q,
      merge_nodes4 fuel is_membership_fixed cc rfn st = Ret q st' ->
      passes_until_clean (merge_nodes4_pass is_membership_fixed cc) st st' /\
      q = (quality st'.2 - quality st.2)%float) /\
   (passes_until_clean (merge_nodes4_pass is_membership_fixed cc) st st' ->
    exists fuel0, forall fuel, fuel0 <= fuel ->
      merge_nodes4 fuel is_membership_fixed cc rfn st =
      Ret (quality st'.2 - quality st.2)%float st')).
Proof.
  split; split.
  - intros fuel q Hret. unfold merge_nodes in Hret.
    apply quality_delta_Ret in Hret as [Hloop ->].
    split; [|done]. by apply while_improvement_Ret in Hloop.
  - intros Hclean.
    destruct (while_improvement_enough InMergeNodes _ _ _ Hclean) as [fuel0 Hfuel].
    exists fuel0. intros fuel Hle. unfold merge_nodes.
    apply quality_delta_Ret. split; [|done]. by apply Hfuel.
  - intros fuel q Hret. unfold merge_nodes4 in Hret.
    apply quality_delta_Ret in Hret as [Hloop ->].
    split; [|done]. by apply while_improvement_Ret in Hloop.
  - intros Hclean.
    destruct (while_improvement_enough InMergeNodes _ _ _ Hclean) as [fuel0 Hfuel].
    exists fuel0. intros fuel Hle. unfold merge_nodes4.
    apply quality_delta_Ret. split; [|done]. by apply Hfuel.
Qed.

(** On the three-vertex path, no vertex fixed, [merge_nodes] returns, so its
    passes reached a clean one. *)
Lemma merge_nodes_runs_until_clean_witness :
  let st := (default_optimiser 42, path3) in
  let is_membership_fixed := [false; false; false] in
  exists q st',
    merge_nodes 10 is_membership_fixed st = Ret q st' /\
    passes_until_clean (merge_nodes_pass is_membership_fixed) st st' /\
    q = (quality (R:=Z) st'.2 - quality (R:=Z) st.2)%float.
Proof.
  intros st is_membership_fixed.
  assert (exists q st', merge_nodes 10 is_membership_fixed st = Ret q st')
    as (q & st' & Hret) by (eexists _, _; vm_compute; reflexivity).
  destruct (merge_nodes_runs_until_clean is_membership_fixed ALL_NEIGH_COMMS true st st')
    as ((Hclean & _) & _).
  destruct (Hclean 10 q Hret) as [Hpasses Hq].
  exists q, st'. split; [exact Hret|]. split; [exact Hpasses|exact Hq].
Defined.

(** ** What a pass without a move says about the partition *)

Section Clean.
Context {R G P : Type} `{Rng R} `{MutableVertexPartition R G P} `{!RngLaws R}.

Lemma visits_flag_sticks fx (f : P * bool -> nat -> option (P * bool)) (l : list nat) :
  visit_shape fx f ->
  forall st st', st.2 = true -> for_each_node f l st = Some st' -> st'.2 = true.
Proof.
  intros Hf. induction l as [|i l IH]; intros st st' Hst; simpl; [by intros [= <-]|].
  pose proof (Hf st i) as Hi.
  destruct (f st i) as [st1|] eqn:Hst1; [|done].
  apply IH.
  destruct (is_fixed_at fx i) as [[|]|]; [congruence| |done].
  destruct Hi as [Hi|[c Hi]]; [congruence|]. by injection Hi as ->.
Qed.

Lemma visits_clean fx (f : P * bool -> nat -> option (P * bool)) (l : list nat) :
  visit_shape fx f ->
  forall st st', for_each_node f l st = Some st' -> st'.2 = false ->
                 st' = st /\ forall i, i ∈ l -> f st i = Some st.
Proof.
  intros Hf. induction l as [|i l IH]; intros st st'; simpl.
  - intros [= <-] _. split; [done|]. intros i Hi. by apply elem_of_nil in Hi.
  - pose proof (Hf st i) as Hi.
    destruct (f st i) as [st1|] eqn:Hst1; [|done]. intros Hrest Hclean.
    assert (st1 = st) as ->.
    { destruct (is_fixed_at fx i) as [[|]|]; [congruence| |done].
      destruct Hi as [Hi|[c Hi]]; [congruence|]. injection Hi as ->.
      by rewrite (visits_flag_sticks fx f l Hf (move_node st.1 i c, true) st'
                    eq_refl Hrest) in Hclean. }
    destruct (IH st st' Hrest Hclean) as [-> Hall].
    split; [done|]. intros j Hj. apply elem_of_cons in Hj as [->|Hj]; [done|by apply Hall].
Qed.

Lemma rng_shuffle_covers (o : Optimiser R) (n i : nat) :
  i < n -> i ∈ (rng_shuffle o (range n)).1.
Proof.
  intros Hi. unfold rng_shuffle.
  pose proof (rng_shuffled_perm (rng o) (range n)) as Hperm.
  destruct (rng_shuffled _ _) as [v' r']. simpl in *.
  rewrite Hperm. apply elem_of_seq. lia.
Qed.

Lemma rng_shuffle_within (o : Optimiser R) (n i : nat) :
  i ∈ (rng_shuffle o (range n)).1 -> i < n.
Proof.
  unfold rng_shuffle.
  pose proof (rng_shuffled_perm (rng o) (range n)) as Hperm.
  destruct (rng_shuffled _ _) as [v' r']. simpl in *.
  rewrite Hperm. intros Hi. apply elem_of_seq in Hi. lia.
Qed.

Lemma shuffled_pass_clean fx
    (visit : Optimiser R -> P * bool -> nat -> option (P * bool))
    (st0 st' : Optimiser R * P) :
  (forall o, visit_shape fx (visit o)) ->
  shuffled_pass visit st0 = Some (st', false) ->
  st'.2 = st0.2 /\
  forall i, i < vcount st'.2 -> visit st'.1 (st'.2, false) i = Some (st'.2, false).
Proof.
  intros Hvisit. unfold shuffled_pass.
  pose proof (rng_shuffle_covers st0.1 (vcount st0.2)) as Hcover.
  destruct (rng_shuffle st0.1 (range (vcount st0.2))) as [nodes o].
  destruct (for_each_node (visit o) nodes (st0.2, false)) as [[p b]|] eqn:Hfold; [|done].
  intros [= <- ->].
  destruct (visits_clean fx (visit o) nodes (Hvisit o) _ _ Hfold eq_refl) as [[= ->] Hall].
  simpl. split; [done|]. intros i Hi. apply Hall, Hcover, Hi.
Qed.

Lemma passes_until_clean_last {St} (pass : St -> option (St * bool)) (st st' : St) :
  passes_until_clean pass st st' -> exists st0, pass st0 = Some (st', false).
Proof. induction 1 as [st st' Hpass|st st1 st' _ _ IH]; [by exists st|done]. Qed.

Lemma loop_Ret_clean fx l
    (visit : Optimiser R -> P * bool -> nat -> option (P * bool)) fuel
    (st st' : Optimiser R * P) :
  (forall o, visit_shape fx (visit o)) ->
  while_improvement l (shuffled_pass visit) fuel st = Ret tt st' ->
  forall i, i < vcount st'.2 -> visit st'.1 (st'.2, false) i = Some (st'.2, false).
Proof.
  intros Hvisit Hret. apply while_improvement_Ret in Hret.
  apply passes_until_clean_last in Hret as [st0 Hlast].
  by apply (shuffled_pass_clean fx visit st0 st' Hvisit Hlast).
Qed.

(** A vertex a loop body leaves in place has no better community. *)
Lemma stay_means_best (p : P) (i : nat) (s : scan) :
  scan_ok p i (membership_at p i) s ->
  comm_to s = membership_at p i \/ (0 <? max_q_gain s)%float = false ->
  forall c, c ∈ scored s ->
    (0 <? diff_move p i c)%float = false \/
    ((0 <? diff_move p i (membership_at p i))%float = true /\
     (diff_move p i (membership_at p i) <? diff_move p i c)%float = false).
Proof.
  intros [Hmax [[_ Hzero]|(Hpos & Hgain & _)]] Hstay c Hc.
  - left. rewrite <- Hzero. by apply Hmax.
  - destruct Hstay as [Hto|Hneg]; [|congruence].
    right. rewrite <- Hto, <- Hgain. split; [done|]. by apply Hmax.
Qed.

End Clean.

(** X5. When the 2-argument [move_nodes] or a [merge_nodes] returns, the
    partition is at rest: its loop body, run on any vertex, is defined and
    moves nothing. For the 2-argument [move_nodes] this means that for every
    vertex that is not fixed, each community scored has a gain that is not
    positive, unless staying itself (a move to the vertex's own community)
    scores a positive gain that the community does not beat. *)
Theorem returned_partition_is_at_rest
    {R G P : Type} `{Rng R} `{MutableVertexPartition R G P} `{!RngLaws R}
    (fuel : nat) (is_membership_fixed : list bool) (cc : consider_comms_t) (rfn : bool)
    (st st' : Optimiser R * P) (q : float) :
  (move_nodes fuel is_membership_fixed st = Ret q st' ->
   forall i, i < vcount st'.2 ->
     move_nodes_impl_visit st'.1 is_membership_fixed (st'.2, false) i
       = Some (st'.2, false) /\
     (is_fixed_at is_membership_fixed i = Some false ->
      forall c, c ∈ scored (move_nodes_impl_scan st'.1 st'.2 i) ->
        (0 <? diff_move st'.2 i c)%float = false \/
        ((0 <? diff_move st'.2 i (membership_at st'.2 i))%float = true /\
         (diff_move st'.2 i (membership_at st'.2 i) <? diff_move st'.2 i c)%float = false))) /\
  (merge_nodes fuel is_membership_fixed st = Ret q st' ->
   forall i, i < vcount st'.2 ->
     merge_nodes_visit st'.1 is_membership_fixed (st'.2, false) i
       = Some (st'.2, false)) /\
  (merge_nodes4 fuel is_membership_fixed cc rfn st = Ret q st' ->
   forall i, i < vcount st'.2 ->
     merge_nodes4_visit st'.1 is_membership_fixed cc (st'.2, false) i
       = Some (st'.2, false)).
Proof.
  split; [|split].
  - intros Hret i Hi. unfold move_nodes in Hret.
    apply quality_delta_Ret in Hret as [Hloop _].
    pose proof (loop_Ret_clean is_membership_fixed InMoveNodes
                  (fun o => move_nodes_impl_visit o is_membership_fixed) fuel st st'
                  (fun o => move_nodes_impl_visit_shape o is_membership_fixed) Hloop i Hi)
      as Hrest.
    split; [done|]. intros Hfx c Hc.
    pose proof (scan_ok_empty st'.1 st'.2 i _ _
      (scan_ok_neigh_comms st'.2 i _ _ (scan_ok_init st'.2 i (membership_at st'.2 i))))
      as Hok.
    apply (stay_means_best st'.2 i _ Hok); [|done].
    left. unfold move_nodes_impl_visit in Hrest. simpl in Hrest. rewrite Hfx in Hrest.
    destruct (decide (comm_to (move_nodes_impl_scan st'.1 st'.2 i) = membership_at st'.2 i))
      as [Heq|Hne]; [done|].
    by injection Hrest.
  - intros Hret i Hi. unfold merge_nodes in Hret.
    apply quality_delta_Ret in Hret as [Hloop _].
    exact (loop_Ret_clean is_membership_fixed InMergeNodes
             (fun o => merge_nodes_visit o is_membership_fixed) fuel st st'
             (fun o => merge_nodes_visit_shape o is_membership_fixed) Hloop i Hi).
  - intros Hret i Hi. unfold merge_nodes4 in Hret.
    apply quality_delta_Ret in Hret as [Hloop _].
    exact (loop_Ret_clean is_membership_fixed InMergeNodes
             (fun o => merge_nodes4_visit o is_membership_fixed cc) fuel st st'
             (fun o => merge_nodes4_visit_shape o is_membership_fixed cc) Hloop i Hi).
Qed.

(** On the three-vertex path, no vertex fixed, [move_nodes] leaves the three
    vertices in community 1; vertex 0 is at rest there. *)
Lemma returned_partition_is_at_rest_witness :
  let is_membership_fixed := [false; false; false] in
  exists q st',
    move_nodes 10 is_membership_fixed (rng_init (default_optimiser 42), path3) = Ret q st' /\
    membership (R:=Z) st'.2 = [1; 1; 1] /\
    move_nodes_impl_visit st'.1 is_membership_fixed (st'.2, false) 0 = Some (st'.2, false).
Proof.
  intros is_membership_fixed.
  assert (exists q st',
            move_nodes 10 is_membership_fixed (rng_init (default_optimiser 42), path3)
              = Ret q st' /\
            membership (R:=Z) st'.2 = [1; 1; 1])
    as (q & st' & Hret & Hm) by (eexists _, _; split; vm_compute; reflexivity).
  exists q, st'. split; [exact Hret|]. split; [exact Hm|].
  pose proof (returned_partition_is_at_rest 10 is_membership_fixed ALL_COMMS true
                (rng_init (default_optimiser 42), path3) st' q) as (Hmove & _ & _).
  assert (0 < vcount (R:=Z) st'.2) as Hlt.
  { assert (exists q0 st0,
              move_nodes 10 is_membership_fixed (rng_init (default_optimiser 42), path3)
                = Ret q0 st0 /\
              vcount (R:=Z) st0.2 = 3)
      as (q0 & st0 & Hret0 & Hn) by (eexists _, _; split; vm_compute; reflexivity).
    rewrite Hret in Hret0. injection Hret0 as _ <-. rewrite Hn. lia. }
  exact (proj1 (Hmove Hret 0 Hlt)).
Defined.

(** ** When every vertex is fixed *)

Section AllFixed.
Context {R G P : Type} `{Rng R} `{MutableVertexPartition R G P} `{!RngLaws R}.

Lemma visits_skip_fixed fx (f : P * bool -> nat -> option (P * bool)) (l : list nat) :
  visit_shape fx f ->
  (forall i, i ∈ l -> is_fixed_at fx i = Some true) ->
  forall st, for_each_node f l st = Some st.
Proof.
  intros Hf. induction l as [|i l IH]; intros Hl st; simpl; [done|].
  pose proof (Hf st i) as Hi. rewrite (Hl i) in Hi by by left. rewrite Hi.
  apply IH. intros j Hj. apply Hl. by right.
Qed.

Lemma shuffled_pass_all_fixed fx
    (visit : Optimiser R -> P * bool -> nat -> option (P * bool))
    (st : Optimiser R * P) :
  (forall o, visit_shape fx (visit o)) ->
  (forall i, i < vcount st.2 -> is_fixed_at fx i = Some true) ->
  exists o', shuffled_pass visit st = Some (o', st.2, false).
Proof.
  intros Hvisit Hfx. unfold shuffled_pass.
  pose proof (rng_shuffle_within st.1 (vcount st.2)) as Hwithin.
  destruct (rng_shuffle st.1 (range (vcount st.2))) as [nodes o].
  rewrite (visits_skip_fixed fx (visit o) nodes (Hvisit o)).
  - by exists o.
  - intros i Hi. apply Hfx, Hwithin, Hi.
Qed.

Lemma quality_delta_clean l (pass : Optimiser R * P -> option (Optimiser R * P * bool))
    fuel (st : Optimiser R * P) (o' : Optimiser R) :
  pass st = Some (o', st.2, false) ->
  (do _ <- while_improvement l pass (S fuel);
   fun st1 => Ret (quality st1.2 - quality st.2)%float st1) st =
  Ret (quality st.2 - quality st.2)%float (o', st.2).
Proof. intros Hpass. unfold bind. simpl. by rewrite Hpass. Qed.

Lemma optimise_round_all_fixed fuel cur fx (w : world R P) (p : P) :
  heap w !! cur = Some p ->
  (forall i, i < vcount p -> is_fixed_at fx i = Some true) ->
  exists o', optimise_round (S fuel) cur fx w =
             Ret false (mkWorld (heap w) o' (history w ++ [false])).
Proof.
  intros Hp Hfx. unfold optimise_round.
  destruct (optimise_routine (opt w)); unfold bind, on_partition; rewrite Hp.
  - destruct (shuffled_pass_all_fixed fx (fun o => move_nodes_impl_visit o fx) (opt w, p)
                (fun o => move_nodes_impl_visit_shape o fx) Hfx) as [o' Hpass].
    unfold move_nodes, bind, move_nodes_impl.
    rewrite (while_improvement_clean _ _ _ _ _ Hpass). simpl.
    rewrite sub_diag_not_pos, (list_insert_id _ _ _ Hp). eauto.
  - destruct (shuffled_pass_all_fixed fx (fun o => merge_nodes_visit o fx) (opt w, p)
                (fun o => merge_nodes_visit_shape o fx) Hfx) as [o' Hpass].
    unfold merge_nodes, bind, merge_nodes_loop.
    rewrite (while_improvement_clean _ _ _ _ _ Hpass). simpl.
    rewrite sub_diag_not_pos, (list_insert_id _ _ _ Hp). eauto.
Qed.

End AllFixed.

(** X6. With every vertex of the graph fixed, nothing is moved: each of
    [move_nodes] and [merge_nodes], with and without [consider_comms],
    returns after one pass with the partition as it was and the value
    [quality() - quality()], which is not positive; and [optimise_partition]
    returns after one round, without aggregating, every partition object as
    it was. *)
Theorem all_fixed_moves_nothing
    {R G P : Type} `{Rng R} `{MutableVertexPartition R G P} `{!RngLaws R}
    (fuel : nat) (is_membership_fixed : list bool) (cc : consider_comms_t) (rfn : bool)
    (o : Optimiser R) (p : P) :
  (forall i, i < vcount p -> is_fixed_at is_membership_fixed i = Some true) ->
  (exists o1 o2 o3 o4,
     move_nodes (S fuel) is_membership_fixed (o, p) =
       Ret (quality p - quality p)%float (o1, p) /\
     move_nodes4 is_membership_fixed cc rfn (o, p) =
       Ret (quality p - quality p)%float (o2, p) /\
     merge_nodes (S fuel) is_membership_fixed (o, p) =
       Ret (quality p - quality p)%float (o3, p) /\
     merge_nodes4 (S fuel) is_membership_fixed cc rfn (o, p) =
       Ret (quality p - quality p)%float (o4, p)) /\
  (forall partition n_iterations (w : world R P),
     heap w !! partition = Some p ->
     exists o',
       optimise_partition (S fuel) partition n_iterations is_membership_fixed w =
       Ret tt (mkWorld (heap w) o' (history w ++ [false]))).
Proof.
  intros Hfx. split.
  - destruct (shuffled_pass_all_fixed is_membership_fixed
                (fun o => move_nodes_impl_visit o is_membership_fixed) (o, p)
                (fun o => move_nodes_impl_visit_shape o is_membership_fixed) Hfx) as [o1 H1].
    destruct (shuffled_pass_all_fixed is_membership_fixed
                (fun o => move_nodes4_visit o is_membership_fixed cc) (o, p)
                (fun o => move_nodes4_visit_shape o is_membership_fixed cc) Hfx) as [o2 H2].
    destruct (shuffled_pass_all_fixed is_membership_fixed
                (fun o => merge_nodes_visit o is_membership_fixed) (o, p)
                (fun o => merge_nodes_visit_shape o is_membership_fixed) Hfx) as [o3 H3].
    destruct (shuffled_pass_all_fixed is_membership_fixed
                (fun o => merge_nodes4_visit o is_membership_fixed cc) (o, p)
                (fun o => merge_nodes4_visit_shape o is_membership_fixed cc) Hfx) as [o4 H4].
    exists o1, o2, o3, o4. split; [|split; [|split]].
    + unfold move_nodes, move_nodes_impl.
      apply (quality_delta_clean InMoveNodes _ fuel (o, p) o1 H1).
    + unfold move_nodes4, move_nodes4_pass. by rewrite H2.
    + unfold merge_nodes, merge_nodes_loop.
      apply (quality_delta_clean InMergeNodes _ fuel (o, p) o3 H3).
    + unfold merge_nodes4, merge_nodes4_loop.
      apply (quality_delta_clean InMergeNodes _ fuel (o, p) o4 H4).
  - intros partition n_iterations w Hp.
    unfold optimise_partition. unfold bind at 1. unfold bind at 1.
    destruct (optimise_round_all_fixed fuel partition is_membership_fixed
                (mkWorld (heap w) (rng_init (opt w)) (history w)) p Hp Hfx) as [o' Hround].
    rewrite Hround. simpl. eauto.
Qed.

(** The three-vertex path with its three vertices fixed: [optimise_partition]
    leaves the partition, of membership [0; 1; 2], as it was. *)
Lemma all_fixed_moves_nothing_witness :
  exists o',
    optimise_partition 1 0 (-1) [true; true; true]
      (mkWorld [path3] (default_optimiser 42) []) =
    Ret tt (mkWorld [path3] o' [false]).
Proof.
  pose proof (all_fixed_moves_nothing 0 [true; true; true] ALL_NEIGH_COMMS true
                (default_optimiser 42) path3) as Hall.
  assert (forall i, i < vcount (R:=Z) path3 ->
                    is_fixed_at [true; true; true] i = Some true)
    as Hfx.
  { intros i Hi. change (vcount (R:=Z) path3) with 3 in Hi.
    destruct i as [|[|[|i]]]; try reflexivity. lia. }
  exact (proj2 (Hall Hfx) 0 (-1)%Z (mkWorld [path3] (default_optimiser 42) []) eq_refl).
Defined.

(** ** What the drivers write, and where *)

Lemma improvements_app (h1 h2 : list bool) :
  improvements (h1 ++ h2) = improvements h1 + improvements h2.
Proof. unfold improvements. by rewrite filter_app, length_app. Qed.

Lemma improvements_replicate (k : nat) : improvements (replicate k true) = k.
Proof.
  unfold improvements. induction k as [|k IH]; [done|].
  change (replicate (S k) true) with (true :: replicate k true).
  rewrite filter_cons_True by done. simpl. by rewrite IH.
Qed.

Section Writes.
Context {R G P : Type} `{Rng R} `{MutableVertexPartition R G P}.

(** A round that returns: the routine ran on [*cur], which it rewrote. *)
Lemma optimise_round_Ret fuel cur fx (w w' : world R P) (b : bool) :
  optimise_round fuel cur fx w = Ret b w' ->
  exists p q st1,
    heap w !! cur = Some p /\
    round_routine (opt w) fuel fx (opt w, p) = Ret q st1 /\
    b = (0 <? q)%float /\
    w' = mkWorld (<[cur:=st1.2]> (heap w)) st1.1 (history w ++ [b]).
Proof.
  unfold optimise_round, round_routine. intros Hret.
  apply bind_Ret in Hret as (b1 & w1 & Hroutine & Hret).
  apply bind_Ret in Hret as ([] & w2 & [= <-] & [= <- <-]).
  assert (forall m : M (Optimiser R * P) float,
            (do q <- on_partition cur m; ret (0 <? q)%float) w = Ret b1 w1 ->
            exists p q st1, heap w !! cur = Some p /\ m (opt w, p) = Ret q st1 /\
                            b1 = (0 <? q)%float /\
                            w1 = mkWorld (<[cur:=st1.2]> (heap w)) st1.1 (history w)) as Hm.
  { intros m Hm. apply bind_Ret in Hm as (q & w0 & Hon & [= <- <-]).
    unfold on_partition in Hon. destruct (heap w !! cur) as [p|]; [|done].
    destruct (m (opt w, p)) as [a st|msg st| |l st] eqn:Hrun; try done.
    injection Hon as <- <-. by exists p, a, st. }
  destruct (optimise_routine (opt w));
    destruct (Hm _ Hroutine) as (p & q & st1 & Hp & Hrun & -> & ->);
    by exists p, q, st1.
Qed.

Lemma aggregate_partition_Ret cur fx (w w' : world R P) (new : nat) :
  aggregate_partition cur fx w = Ret new w' ->
  exists p p' o',
    heap w !! cur = Some p /\
    aggregate p (opt w) (refine_routine (opt w)) (refine_partition (opt w)) fx = (p', o') /\
    new = length (heap w) /\
    w' = mkWorld (heap w ++ [p']) o' (history w).
Proof.
  intros Hret. apply bind_Ret in Hret as (p & w1 & Hderef & Hret).
  unfold deref in Hderef. destruct (heap w !! cur) as [p0|] eqn:Hp; [|done].
  injection Hderef as <- <-.
  destruct (aggregate _ _ _ _ _) as [p' o'] eqn:Hagg. injection Hret as <- <-.
  by exists p0, p', o'.
Qed.

Lemma optimise_partition_loop_writes (L : nat) fuel fuel_in n fx :
  forall cur b i (w w' : world R P),
    L <= length (heap w) ->
    (b = true -> L <= cur) ->
    optimise_partition_loop fuel fuel_in n fx cur b i w = Ret tt w' ->
    take L (heap w') = take L (heap w) /\
    exists h, history w' = history w ++ h /\
              length (heap w') = length (heap w) + improvements h.
Proof.
  induction fuel as [|fuel IH]; intros cur b i w w' HL Hcur; simpl.
  - destruct (b && _); [done|]. intros [= <-]. split; [done|].
    exists []. by rewrite app_nil_r, Nat.add_0_r.
  - destruct (b && _) eqn:Hc.
    + apply andb_true_iff in Hc as [-> _]. specialize (Hcur eq_refl). intros Hret.
      apply bind_Ret in Hret as (b1 & w1 & Hround & Hret).
      apply optimise_round_Ret in Hround as (p & q & st1 & Hp & _ & _ & ->).
      apply bind_Ret in Hret as (cur' & w2 & Hagg & Hret).
      destruct b1.
      * apply aggregate_partition_Ret in Hagg as (p1 & p' & o' & _ & _ & -> & ->).
        simpl in *. apply IH in Hret as [Htake (h & Hh & Hlen)]; simpl in *.
        -- split.
           ++ rewrite Htake, take_app_le by (rewrite length_insert; lia).
              by apply take_insert_ge.
           ++ exists (true :: h). rewrite Hh, <- app_assoc. split; [done|].
              rewrite Hlen, length_app, length_insert.
              change (true :: h) with ([true] ++ h). rewrite improvements_app.
              change (improvements [true]) with 1. simpl. lia.
        -- rewrite length_app, length_insert. lia.
        -- intros _. rewrite length_insert. lia.
      * injection Hagg as <- <-.
        destruct fuel as [|fuel']; simpl in Hret; injection Hret as <-; simpl.
        all: split; [by apply take_insert_ge|].
        all: exists [false]; split; [done|]; rewrite length_insert;
          change (improvements [false]) with 0; lia.
    + intros [= <-]. split; [done|].
      exists []. by rewrite app_nil_r, Nat.add_0_r.
Qed.

End Writes.

(** X7. When [optimise_partition] returns, the partition the caller passed
    holds what the first optimisation round left in it: the later rounds
    work on the objects [aggregate] returns and nothing of them is written
    back. No other object that existed at the call is changed, and the call
    creates one object for each round that improved. *)
Theorem optimise_partition_writes_first_round_only
    {R G P : Type} `{Rng R} `{MutableVertexPartition R G P}
    (fuel partition : nat) (n_iterations : Z) (is_membership_fixed : list bool)
    (w w' : world R P) (p : P) :
  heap w !! partition = Some p ->
  optimise_partition fuel partition n_iterations is_membership_fixed w = Ret tt w' ->
  exists q st1 h,
    round_routine (opt w) fuel is_membership_fixed (rng_init (opt w), p) = Ret q st1 /\
    heap w' !! partition = Some st1.2 /\
    (forall ptr, ptr ≠ partition -> ptr < length (heap w) ->
                 heap w' !! ptr = heap w !! ptr) /\
    history w' = history w ++ h /\
    length (heap w') = length (heap w) + improvements h.
Proof.
  intros Hp Hret. unfold optimise_partition in Hret.
  apply bind_Ret in Hret as ([] & w0 & [= <-] & Hret).
  apply bind_Ret in Hret as (b1 & w1 & Hround & Hret).
  apply optimise_round_Ret in Hround as (p0 & q & st1 & Hp0 & Hrun & Hb & ->).
  simpl in Hp0, Hrun. rewrite Hp in Hp0. injection Hp0 as <-.
  apply bind_Ret in Hret as (cur' & w2 & Hagg & Hret).
  assert (partition < length (heap w)) as Hlt by by eapply lookup_lt_Some.
  assert (take (length (heap w)) (heap w') = <[partition:=st1.2]> (heap w) /\
          exists h, history w' = history w ++ h /\
                    length (heap w') = length (heap w) + improvements h)
    as [Htake (h & Hh & Hlen)].
  { destruct b1.
    - apply aggregate_partition_Ret in Hagg as (p1 & p' & o' & _ & _ & -> & ->).
      simpl in *.
      apply (optimise_partition_loop_writes (length (heap w))) in Hret
        as [Htake (h & Hh & Hlen)]; simpl in *.
      + split.
        * rewrite Htake, take_app_le by (rewrite length_insert; lia).
          apply take_ge. by rewrite length_insert.
        * exists (true :: h). rewrite Hh, <- app_assoc. split; [done|].
          rewrite Hlen, length_app, length_insert.
          change (true :: h) with ([true] ++ h). rewrite improvements_app.
          change (improvements [true]) with 1. simpl. lia.
      + rewrite length_app, length_insert. lia.
      + intros _. rewrite length_insert. lia.
    - injection Hagg as <- <-.
      destruct fuel as [|fuel']; simpl in Hret; injection Hret as <-; simpl.
      all: split; [apply take_ge; by rewrite length_insert|].
      all: exists [false]; split; [done|]; rewrite length_insert;
        change (improvements [false]) with 0; lia. }
  exists q, st1, h. split; [exact Hrun|].
  assert (forall ptr, ptr < length (heap w) ->
            heap w' !! ptr = <[partition:=st1.2]> (heap w) !! ptr) as Hlook.
  { intros ptr Hptr. by rewrite <- Htake, lookup_take_lt. }
  split; [|split; [|done]].
  - rewrite Hlook by done. by apply list_lookup_insert_eq.
  - intros ptr Hne Hptr. rewrite Hlook by done. by apply list_lookup_insert_ne.
Qed.

(** The three-vertex path, no vertex fixed, beside a second partition: the
    call leaves the path as its first round did, the second partition as it
    was, and one new object for the one round that improved. *)
Lemma optimise_partition_writes_first_round_only_witness :
  let w := mkWorld [path3; five] (default_optimiser 42) [] in
  let is_membership_fixed := [false; false; false] in
  exists w' st1,
    optimise_partition 10 0 (-1)%Z is_membership_fixed w = Ret tt w' /\
    move_nodes 10 is_membership_fixed (rng_init (opt w), path3) = Ret 5%float st1 /\
    heap w' !! 0 = Some st1.2 /\
    heap w' !! 1 = Some five /\
    history w' = [true; false] /\
    length (heap w') = 3.
Proof.
  intros w is_membership_fixed.
  assert (exists w', optimise_partition 10 0 (-1)%Z is_membership_fixed w = Ret tt w' /\
                     history w' = [true; false])
    as (w' & Hret & Hhist) by (eexists; split; vm_compute; reflexivity).
  assert (heap w !! 0 = Some path3) as Hp by (vm_compute; reflexivity).
  destruct (optimise_partition_writes_first_round_only 10 0 (-1)%Z is_membership_fixed
              w w' path3 Hp Hret)
    as (q & st1 & h & Hrun & Hfirst & Hrest & Hh & Hlen).
  assert (exists st, move_nodes 10 is_membership_fixed (rng_init (opt w), path3)
                     = Ret 5%float st)
    as [st Hmove] by (eexists; vm_compute; reflexivity).
  assert (round_routine (opt w) 10 is_membership_fixed (rng_init (opt w), path3)
            = Ret q st1 ->
          move_nodes 10 is_membership_fixed (rng_init (opt w), path3) = Ret q st1) as Hsame
    by (intros Hr; exact Hr).
  apply Hsame in Hrun. rewrite Hmove in Hrun. injection Hrun as <- <-.
  exists w', st. split; [exact Hret|]. split; [exact Hmove|]. split; [exact Hfirst|].
  split.
  - assert (1 ≠ 0) as Hne by lia.
    assert (1 < length (heap w)) as Hlt by (vm_compute; lia).
    exact (Hrest 1 Hne Hlt).
  - split; [exact Hhist|].
    rewrite Hhist in Hh. change (history w) with (@nil bool) in Hh.
    simpl in Hh. subst h. exact Hlen.
Defined.

(** ** The objects of a hierarchical call *)

Lemma map_seq_ext (f g : nat -> nat) (k : nat) :
  forall a b, (forall j, f (a + j) = g (b + j)) -> map f (seq a k) = map g (seq b k).
Proof.
  induction k as [|k IH]; intros a b Hfg; simpl; [done|].
  apply (f_equal2 cons).
  - specialize (Hfg 0). by rewrite !Nat.add_0_r in Hfg.
  - apply IH. intros j. specialize (Hfg (S j)).
    by replace (S a + j) with (a + S j) by lia; replace (S b + j) with (b + S j) by lia.
Qed.

Section Layers.
Context {R G P : Type} `{Rng R} `{MutableVertexPartition R G P}.

(** A round of the hierarchical driver that returns: the objects it creates,
    and what it stores in the two vectors. *)
Lemma hierarchical_round_Ret fuel cur fx (s s' : hstate R P) (r : nat * bool) :
  hierarchical_round fuel cur fx s = Ret r s' ->
  exists x new_objs,
    heap (hw s') = <[cur:=x]> (heap (hw s)) ++ new_objs /\
    history (hw s') = history (hw s) ++ [r.2] /\
    (r.2 = true ->
       length new_objs = 2 /\ r.1 = length (heap (hw s)) /\
       partitions s' = <[0:=length (heap (hw s))]> (partitions s) /\
       hierarchy s' = hierarchy s ++ [S (length (heap (hw s)))]) /\
    (r.2 = false ->
       new_objs = [] /\ r.1 = cur /\
       partitions s' = partitions s /\ hierarchy s' = hierarchy s).
Proof.
  intros Hret.
  apply bind_Ret in Hret as (b & s1 & Hround & Hret).
  apply in_world_Ret in Hround as (w1 & Hround & ->).
  apply optimise_round_Ret in Hround as (p & q & st1 & Hp & _ & _ & ->).
  destruct b.
  - apply bind_Ret in Hret as (new & s2 & Hagg & Hret).
    apply in_world_Ret in Hagg as (w2 & Hagg & ->). simpl in *.
    apply aggregate_partition_Ret in Hagg as (p1 & p' & o' & _ & _ & -> & ->).
    simpl in *.
    apply bind_Ret in Hret as ([] & s3 & Hpush & [= <- <-]).
    apply bind_Ret in Hpush as (pn & s4 & Hpn & Hpush).
    apply in_world_Ret in Hpn as (w4 & Hpn & ->).
    unfold deref in Hpn. simpl in Hpn.
    destruct (_ !! _) as [pn'|] in Hpn; [|done]. injection Hpn as <- <-.
    apply bind_Ret in Hpush as (po & s5 & Hpo & Hpush).
    apply in_world_Ret in Hpo as (w5 & Hpo & ->).
    unfold deref in Hpo. simpl in Hpo.
    destruct (_ !! _) as [po'|] in Hpo; [|done]. injection Hpo as <- <-.
    apply bind_Ret in Hpush as (c & s6 & Hc & [= <-]).
    apply in_world_Ret in Hc as (w6 & [= <- <-] & ->). simpl.
    exists st1.2, [p'; copy_from_graph pn' (g po')].
    rewrite <- app_assoc, length_app, !length_insert. simpl.
    split; [done|]. split; [done|]. split; [|done].
    intros _. repeat split. f_equal. f_equal. lia.
  - injection Hret as <- <-. simpl.
    exists st1.2, []. rewrite app_nil_r. by repeat split.
Qed.

Lemma hierarchical_loop_objects (L : nat) fuel fuel_in fx :
  forall cur b (s s' : hstate R P),
    L <= length (heap (hw s)) ->
    (b = true -> L <= cur) ->
    hierarchical_loop fuel fuel_in fx cur b s = Ret tt s' ->
    take L (heap (hw s')) = take L (heap (hw s)) /\
    exists k,
      history (hw s') = history (hw s) ++ (if b then replicate k true ++ [false] else []) /\
      (b = false -> k = 0) /\
      length (heap (hw s')) = length (heap (hw s)) + 2 * k /\
      hierarchy s' = hierarchy s ++
                     map (fun j => length (heap (hw s)) + 1 + 2 * j) (seq 0 k) /\
      partitions s' = match k with
                      | 0 => partitions s
                      | S _ => <[0:=length (heap (hw s)) + 2 * k - 2]> (partitions s)
                      end.
Proof.
  induction fuel as [|fuel IH]; intros cur [|] s s' HL Hcur; simpl; try done.
  - intros [= <-]. split; [done|]. exists 0. simpl. rewrite !app_nil_r.
    repeat split; lia.
  - specialize (Hcur eq_refl). intros Hret.
    apply bind_Ret in Hret as (r & s1 & Hround & Hret).
    apply hierarchical_round_Ret in Hround
      as (x & new_objs & Hheap & Hhist & Htrue & Hfalse).
    destruct r as [cur' [|]]; simpl in *.
    + destruct (Htrue eq_refl) as (Hnew & -> & Hparts & Hhier).
      apply IH in Hret as [Htake (k & Hh & _ & Hlen & Hhier' & Hparts')].
      * rewrite Hheap, length_app, length_insert, Hnew in *.
        split.
        -- rewrite Htake, take_app_le by (rewrite length_insert; lia).
           by apply take_insert_ge.
        -- exists (S k). rewrite Hh, Hhist, <- app_assoc. split; [done|].
           split; [done|]. split; [lia|]. split.
           ++ rewrite Hhier', Hhier, <- app_assoc. f_equal.
              change (seq 0 (S k)) with (0 :: seq 1 k). cbn [map app].
              apply (f_equal2 cons); [lia|]. apply map_seq_ext. intros j. lia.
           ++ rewrite Hparts', Hparts. destruct k as [|k].
              ** f_equal. lia.
              ** rewrite list_insert_insert_eq. f_equal. lia.
      * rewrite Hheap, length_app, length_insert. lia.
      * intros _. lia.
    + destruct (Hfalse eq_refl) as (-> & -> & Hparts & Hhier).
      rewrite app_nil_r in Hheap.
      destruct fuel as [|fuel']; simpl in Hret; injection Hret as <-.
      all: rewrite Hheap, length_insert.
      all: split; [by apply take_insert_ge|].
      all: exists 0; simpl; rewrite app_nil_r, Nat.add_0_r; done.
  - intros [= <-]. split; [done|]. exists 0. simpl. rewrite !app_nil_r.
    repeat split; lia.
Qed.

End Layers.

(** X8. A call of [optimise_partition_hierarchical] that returns after [k]
    improving rounds has run [k + 1] rounds, all but the last improving. It
    created [1 + 2 * k] objects: the copy of the partition, then for each
    improving round the aggregate and its [copy_from_graph]. The hierarchy
    holds the copy followed by the [k] [copy_from_graph] objects, none of
    which is the partition a later round moves vertices in; [partitions[0]]
    is left pointing to the last aggregate (to the caller's partition when
    [k = 0]) and no other entry of [partitions] is written. Of the objects
    that existed at the call only [*partitions[0]] is changed. *)
Theorem hierarchical_objects
    {R G P : Type} `{Rng R} `{MutableVertexPartition R G P}
    (fuel : nat) (layer_weights : list float) (is_membership_fixed : list bool)
    (s s' : hstate R P) (q : float) :
  optimise_partition_hierarchical fuel layer_weights is_membership_fixed s = Ret q s' ->
  let n0 := length (heap (hw s)) in
  exists (partition k : nat),
    partitions s !! 0 = Some partition /\
    history (hw s') = history (hw s) ++ replicate k true ++ [false] /\
    length (heap (hw s')) = n0 + 1 + 2 * k /\
    hierarchy s' = map (fun j => n0 + 2 * j) (seq 0 (S k)) /\
    partitions s' = match k with
                    | 0 => partitions s
                    | S _ => <[0:=n0 + 2 * k - 1]> (partitions s)
                    end /\
    forall ptr, ptr ≠ partition -> ptr < n0 ->
                heap (hw s') !! ptr = heap (hw s) !! ptr.
Proof.
  unfold optimise_partition_hierarchical.
  destruct (negb _); [done|].
  destruct (partitions s !! 0) as [partition|]; [|done].
  intros Hret.
  apply bind_Ret in Hret as ([] & s1 & Hinit & Hret).
  apply in_world_Ret in Hinit as (w1 & [= <-] & ->).
  apply bind_Ret in Hret as ([] & s2 & Hreset & Hret).
  apply bind_Ret in Hreset as (p0 & s3 & Hp0 & Hreset).
  apply in_world_Ret in Hp0 as (w3 & Hp0 & ->).
  unfold deref in Hp0. simpl in Hp0.
  destruct (heap (hw s) !! partition) as [p|] eqn:Hcur; [|done].
  injection Hp0 as <- <-.
  apply bind_Ret in Hreset as (c & s4 & Hc & [= <-]).
  apply in_world_Ret in Hc as (w4 & [= <- <-] & ->). simpl in *.
  apply bind_Ret in Hret as (r & s5 & Hround & Hret).
  apply hierarchical_round_Ret in Hround
    as (x & new_objs & Hheap & Hhist & Htrue & Hfalse).
  apply bind_Ret in Hret as ([] & s6 & Hloop & Hret).
  apply hierarchy_quality_Ret in Hret as [-> _].
  simpl in *.
  assert (partition < length (heap (hw s))) as Hlt by by eapply lookup_lt_Some.
  remember (length (heap (hw s))) as n0 eqn:Hn0.
  assert (length (heap (hw s5)) = n0 + 1 + length new_objs) as Hlen5.
  { rewrite Hheap, length_app, length_insert, length_app. simpl. lia. }
  assert (take n0 (heap (hw s5)) = <[partition:=x]> (heap (hw s))) as Htake5.
  { rewrite Hheap, take_app_le by (rewrite length_insert, length_app; simpl; lia).
    rewrite insert_app_l by lia.
    rewrite take_app_le by (rewrite length_insert; lia).
    apply take_ge. rewrite length_insert. lia. }
  apply (hierarchical_loop_objects n0) in Hloop
    as [Htake (k & Hh & Hk & Hlen & Hhier & Hparts)].
  2: { lia. }
  2: { intros Hb. destruct (Htrue Hb) as (_ & -> & _). rewrite length_app. simpl. lia. }
  assert (forall ptr, ptr ≠ partition -> ptr < n0 ->
            heap (hw s6) !! ptr = heap (hw s) !! ptr) as Hrest.
  { intros ptr Hne Hptr.
    rewrite <- (lookup_take_lt (heap (hw s6)) n0 ptr Hptr), Htake, Htake5.
    by apply list_lookup_insert_ne. }
  rewrite length_app in Htrue. simpl in Htrue. rewrite <- Hn0 in Htrue.
  destruct r as [cur' [|]]; simpl in *.
  - destruct (Htrue eq_refl) as (Hnew & -> & Hparts5 & Hhier5).
    exists partition, (S k). split; [done|].
    rewrite Hh, Hhist, <- app_assoc. split; [done|].
    split; [lia|]. split; [|split; [|done]].
    + rewrite Hhier, Hhier5, Hlen5, Hnew.
      change (seq 0 (S (S k))) with (0 :: 1 :: seq 2 k). cbn [map app].
      apply (f_equal2 cons); [lia|]. apply (f_equal2 cons); [lia|].
      apply map_seq_ext. intros j. lia.
    + rewrite Hparts, Hparts5, Hlen5, Hnew. destruct k as [|k].
      * f_equal. lia.
      * rewrite list_insert_insert_eq. f_equal. lia.
  - destruct (Hfalse eq_refl) as (-> & -> & Hparts5 & Hhier5).
    rewrite (Hk eq_refl) in *. simpl in *.
    exists partition, 0. split; [done|].
    rewrite Hh, Hhist, app_nil_r. split; [done|].
    split; [lia|]. split; [|split; [|done]].
    + rewrite Hhier, Hhier5, app_nil_r. simpl. do 2 f_equal. lia.
    + by rewrite Hparts, Hparts5.
Qed.

(** Two layers, the three-vertex path and a second partition, no vertex
    fixed, and an old hierarchy [7; 8]: one round improves, so three objects
    are created, and the second layer is neither moved nor re-pointed. *)
Lemma hierarchical_objects_witness :
  let s := mkHstate (mkWorld [path3; five] (default_optimiser 42) []) [0; 1] [7; 8] in
  let is_membership_fixed := [false; false; false] in
  exists q s',
    optimise_partition_hierarchical 10 [1%float; 2%float] is_membership_fixed s
      = Ret q s' /\
    history (hw s') = [true; false] /\
    length (heap (hw s')) = 5 /\
    hierarchy s' = [2; 4] /\
    partitions s' = [3; 1] /\
    heap (hw s') !! 1 = Some five.
Proof.
  intros s is_membership_fixed.
  assert (exists q s',
            optimise_partition_hierarchical 10 [1%float; 2%float] is_membership_fixed s
              = Ret q s' /\
            length (heap (hw s')) = 5)
    as (q & s' & Hret & Hlen5) by (eexists _, _; split; vm_compute; reflexivity).
  pose proof (hierarchical_objects 10 [1%float; 2%float] is_membership_fixed s s' q Hret)
    as Hobj.
  change (length (heap (hw s))) with 2 in Hobj. cbv zeta in Hobj.
  destruct Hobj as (partition & k & Hpart & Hhist & Hlen & Hhier & Hparts & Hrest).
  injection Hpart as <-.
  assert (k = 1) as -> by lia.
  exists q, s'. split; [exact Hret|]. split; [exact Hhist|]. split; [exact Hlen5|].
  split; [exact Hhier|]. split; [exact Hparts|].
  assert (1 ≠ 0) as Hne by lia. assert (1 < 2) as Hlt by lia.
  exact (Hrest 1 Hne Hlt).
Defined.

(** ** What a hierarchical call reads *)

Section FirstLayer.
Context {R G P : Type} `{Rng R} `{MutableVertexPartition R G P}.

Lemma reads_first_layer_bind {A B} (m : M (hstate R P) A) (k : A -> M (hstate R P) B) :
  reads_first_layer m -> (forall a, reads_first_layer (k a)) ->
  reads_first_layer (bind m k).
Proof.
  intros Hm Hk s1 s2 Hs. specialize (Hm s1 s2 Hs). unfold bind.
  destruct (m s1) as [a1 t1|msg1 t1| |l1 t1], (m s2) as [a2 t2|msg2 t2| |l2 t2];
    simpl in Hm; try done.
  destruct Hm as [-> Ht]. by apply Hk.
Qed.

Lemma reads_first_layer_ret {A} (a : A) : reads_first_layer (R:=R) (P:=P) (ret a).
Proof. by intros s1 s2 Hs. Qed.

Lemma reads_first_layer_in_world {A} (m : M (world R P) A) :
  reads_first_layer (in_world m).
Proof.
  intros s1 s2 (Hw & Hh & Hp). unfold in_world. rewrite Hw.
  destruct (m (hw s2)) as [a w|msg w| |l w]; simpl; done.
Qed.

Lemma reads_first_layer_push new cur : reads_first_layer (hierarchy_push new cur).
Proof.
  unfold hierarchy_push.
  apply reads_first_layer_bind; [apply reads_first_layer_in_world|intros pn].
  apply reads_first_layer_bind; [apply reads_first_layer_in_world|intros po].
  apply reads_first_layer_bind; [apply reads_first_layer_in_world|intros c].
  intros s1 s2 (Hw & Hh & Hp). simpl. rewrite Hw, Hh.
  split; [done|]. split; [done|]. split; [done|]. simpl.
  destruct (partitions s1), (partitions s2); done.
Qed.

Lemma reads_first_layer_round fuel cur fx :
  reads_first_layer (hierarchical_round fuel cur fx).
Proof.
  unfold hierarchical_round.
  apply reads_first_layer_bind; [apply reads_first_layer_in_world|intros [|]].
  - apply reads_first_layer_bind; [apply reads_first_layer_in_world|intros new].
    apply reads_first_layer_bind; [apply reads_first_layer_push|intros _].
    apply reads_first_layer_ret.
  - apply reads_first_layer_ret.
Qed.

Lemma reads_first_layer_loop fuel fuel_in fx :
  forall cur b, reads_first_layer (hierarchical_loop fuel fuel_in fx cur b).
Proof.
  induction fuel as [|fuel IH]; intros cur [|]; simpl.
  - by intros s1 s2 Hs.
  - apply reads_first_layer_ret.
  - apply reads_first_layer_bind; [apply reads_first_layer_round|intros r; apply IH].
  - apply reads_first_layer_ret.
Qed.

Lemma reads_first_layer_quality : reads_first_layer (hierarchy_quality (R:=R) (P:=P)).
Proof.
  intros s1 s2 Hs. unfold hierarchy_quality.
  pose proof Hs as (Hw & Hh & Hp). rewrite Hh.
  destruct (last (hierarchy s2)) as [back|]; [|by simpl].
  assert (reads_first_layer (R:=R) (P:=P)
            (do p <- in_world (deref back); ret (quality p))) as Hq.
  { apply reads_first_layer_bind; [apply reads_first_layer_in_world|intros p].
    apply reads_first_layer_ret. }
  by apply Hq.
Qed.

(** The call once the sizes agree and [partitions[0]] exists, up to the copy
    it stores first. *)
Lemma hierarchical_after_reset fuel lw fx (s : hstate R P) (partition : nat) :
  length (partitions s) = length lw ->
  partitions s !! 0 = Some partition ->
  optimise_partition_hierarchical fuel lw fx s =
  match heap (hw s) !! partition with
  | None => Undefined
  | Some p =>
      (do r <- hierarchical_round fuel partition fx;
       do _ <- hierarchical_loop fuel fuel fx r.1 r.2;
       hierarchy_quality)
        (mkHstate (mkWorld (heap (hw s) ++ [copy p]) (rng_init (opt (hw s)))
                     (history (hw s)))
           (partitions s) [length (heap (hw s))])
  end.
Proof.
  intros Hlen Hpart. unfold optimise_partition_hierarchical.
  apply Nat.eqb_eq in Hlen. rewrite Hlen, Hpart. simpl.
  unfold bind at 1. unfold in_world at 1. simpl.
  unfold bind at 1. unfold hierarchy_reset.
  unfold bind at 1. unfold in_world at 1, deref. simpl.
  destruct (heap (hw s) !! partition) as [p|]; [|done].
  reflexivity.
Qed.

End FirstLayer.

(** X9. [optimise_partition_hierarchical] reads [layer_weights] and
    [partitions] for their sizes and [partitions[0]] only: the values of the
    weights, the partitions of the other layers, how many layers there are
    and the hierarchy passed in make no difference to the outcome, the store
    and the hierarchy it leaves. *)
Theorem hierarchical_reads_first_layer_only
    {R G P : Type} `{Rng R} `{MutableVertexPartition R G P}
    (fuel : nat) (layer_weights1 layer_weights2 : list float)
    (is_membership_fixed : list bool) (s1 s2 : hstate R P) :
  hw s1 = hw s2 ->
  partitions s1 !! 0 = partitions s2 !! 0 ->
  length (partitions s1) = length layer_weights1 ->
  length (partitions s2) = length layer_weights2 ->
  same_outcome same_first_layer
    (optimise_partition_hierarchical fuel layer_weights1 is_membership_fixed s1)
    (optimise_partition_hierarchical fuel layer_weights2 is_membership_fixed s2).
Proof.
  intros Hw Hp Hlen1 Hlen2.
  destruct (partitions s2 !! 0) as [partition|] eqn:Hp2.
  - rewrite (hierarchical_after_reset _ _ _ _ partition Hlen1 Hp),
      (hierarchical_after_reset _ _ _ _ partition Hlen2 Hp2), Hw.
    destruct (heap (hw s2) !! partition) as [p|]; [|done].
    assert (reads_first_layer
              (do r <- hierarchical_round (R:=R) (P:=P) fuel partition is_membership_fixed;
               do _ <- hierarchical_loop fuel fuel is_membership_fixed r.1 r.2;
               hierarchy_quality)) as Hreads.
    { apply reads_first_layer_bind; [apply reads_first_layer_round|intros r].
      apply reads_first_layer_bind; [apply reads_first_layer_loop|intros _].
      apply reads_first_layer_quality. }
    apply Hreads. split; [done|]. split; [done|]. simpl. by rewrite Hp, Hp2.
  - unfold optimise_partition_hierarchical.
    apply Nat.eqb_eq in Hlen1, Hlen2. rewrite Hlen1, Hlen2, Hp, Hp2. done.
Qed.

(** The three-vertex path, no vertex fixed, as first layer: with two layers
    and an old hierarchy, or alone, the call returns the same value and
    leaves the same store and hierarchy. *)
Lemma hierarchical_reads_first_layer_only_witness :
  let w := mkWorld [path3; five] (default_optimiser 42) [] in
  let is_membership_fixed := [false; false; false] in
  exists q s1' s2',
    optimise_partition_hierarchical 10 [1%float; 2%float] is_membership_fixed
      (mkHstate w [0; 1] [7; 8]) = Ret q s1' /\
    optimise_partition_hierarchical 10 [5%float] is_membership_fixed
      (mkHstate w [0] []) = Ret q s2' /\
    hw s1' = hw s2' /\ hierarchy s1' = hierarchy s2'.
Proof.
  intros w is_membership_fixed.
  assert (exists q1 s1', optimise_partition_hierarchical 10 [1%float; 2%float]
                           is_membership_fixed (mkHstate w [0; 1] [7; 8]) = Ret q1 s1')
    as (q1 & s1' & Hret1) by (eexists _, _; vm_compute; reflexivity).
  assert (exists q2 s2', optimise_partition_hierarchical 10 [5%float]
                           is_membership_fixed (mkHstate w [0] []) = Ret q2 s2')
    as (q2 & s2' & Hret2) by (eexists _, _; vm_compute; reflexivity).
  pose proof (hierarchical_reads_first_layer_only 10 [1%float; 2%float] [5%float]
                is_membership_fixed
                (mkHstate w [0; 1] [7; 8]) (mkHstate w [0] [])
                eq_refl eq_refl eq_refl eq_refl) as Hsame.
  rewrite Hret1, Hret2 in Hsame. destruct Hsame as (-> & Hw & Hh & _).
  exists q2, s1', s2'. split; [exact Hret1|]. split; [exact Hret2|].
  split; [exact Hw|exact Hh].
Defined.

(** ** Reading [is_membership_fixed] *)

Section Bounds.
Context {R G P : Type} `{Rng R} `{MutableVertexPartition R G P}.
Context `{!PartitionLaws R G P} `{!RngLaws R}.

Lemma for_each_node_undefined fx (f : P * bool -> nat -> option (P * bool))
    (l : list nat) (i : nat) :
  visit_shape fx f ->
  i ∈ l -> length fx <= i ->
  forall st, for_each_node f l st = None.
Proof.
  intros Hf Hi Hlen. induction l as [|j l IH]; intros st; simpl.
  - by apply elem_of_nil in Hi.
  - pose proof (Hf st j) as Hj. unfold is_fixed_at in Hj.
    apply elem_of_cons in Hi as [<-|Hi].
    + rewrite (lookup_ge_None_2 fx i Hlen) in Hj. by rewrite Hj.
    + destruct (f st j); [by apply IH|done].
Qed.

Lemma for_each_node_defined fx (f : P * bool -> nat -> option (P * bool)) (l : list nat) :
  visit_shape fx f ->
  (forall i, i ∈ l -> i < length fx) ->
  forall st, exists st', for_each_node f l st = Some st'.
Proof.
  intros Hf. induction l as [|j l IH]; intros Hl st; simpl; [by exists st|].
  assert (exists st1, f st j = Some st1) as [st1 ->].
  { pose proof (Hf st j) as Hj. unfold is_fixed_at in Hj.
    destruct (lookup_lt_is_Some_2 fx j (Hl j ltac:(by left))) as [[|] Hfx];
      rewrite Hfx in Hj; [by exists st|].
    destruct Hj as [Hj|[c Hj]]; eauto. }
  apply IH. intros i Hi. apply Hl. by right.
Qed.

Lemma shuffled_pass_undefined fx
    (visit : Optimiser R -> P * bool -> nat -> option (P * bool)) (st : Optimiser R * P) :
  (forall o, visit_shape fx (visit o)) ->
  length fx < vcount st.2 ->
  shuffled_pass visit st = None.
Proof.
  intros Hvisit Hlen. unfold shuffled_pass.
  pose proof (rng_shuffle_covers st.1 (vcount st.2) (length fx) Hlen) as Hcover.
  destruct (rng_shuffle st.1 (range (vcount st.2))) as [nodes o].
  by rewrite (for_each_node_undefined fx (visit o) nodes (length fx) (Hvisit o) Hcover).
Qed.

Lemma shuffled_pass_defined fx
    (visit : Optimiser R -> P * bool -> nat -> option (P * bool)) (st : Optimiser R * P) :
  (forall o, visit_shape fx (visit o)) ->
  vcount st.2 <= length fx ->
  exists st1 b, shuffled_pass visit st = Some (st1, b) /\ vcount st1.2 = vcount st.2.
Proof.
  intros Hvisit Hlen. unfold shuffled_pass.
  pose proof (rng_shuffle_within st.1 (vcount st.2)) as Hwithin.
  destruct (rng_shuffle st.1 (range (vcount st.2))) as [nodes o].
  destruct (for_each_node_defined fx (visit o) nodes (Hvisit o)
              (fun i Hi => Nat.lt_le_trans _ _ _ (Hwithin i Hi) Hlen) (st.2, false))
    as [[p b] Hfold].
  rewrite Hfold. exists (o, p), b. split; [done|]. unfold vcount. simpl.
  pose proof (visits_graph fx (visit o) nodes (Hvisit o) _ _ Hfold) as Hg.
  simpl in Hg. by rewrite Hg.
Qed.

Lemma loop_undefined fx l
    (visit : Optimiser R -> P * bool -> nat -> option (P * bool)) fuel
    (st : Optimiser R * P) :
  (forall o, visit_shape fx (visit o)) ->
  length fx < vcount st.2 ->
  while_improvement l (shuffled_pass visit) (S fuel) st = Undefined.
Proof. intros Hvisit Hlen. simpl. by rewrite (shuffled_pass_undefined fx). Qed.

Lemma loop_defined fx l
    (visit : Optimiser R -> P * bool -> nat -> option (P * bool)) fuel :
  (forall o, visit_shape fx (visit o)) ->
  forall st : Optimiser R * P,
    vcount st.2 <= length fx ->
    while_improvement l (shuffled_pass visit) fuel st <> Undefined.
Proof.
  intros Hvisit. induction fuel as [|fuel IH]; intros st Hlen; simpl; [done|].
  destruct (shuffled_pass_defined fx visit st Hvisit Hlen) as (st1 & b & -> & Hn).
  destruct b; [|done]. apply IH. by rewrite Hn.
Qed.

Lemma quality_delta_undefined (m : M (Optimiser R * P) unit) (q0 : float)
    (st : Optimiser R * P) :
  (do _ <- m; fun st' => Ret (quality st'.2 - q0)%float st') st = Undefined <->
  m st = Undefined.
Proof. unfold bind. by destruct (m st). Qed.

End Bounds.

(** X10. [is_membership_fixed] is indexed, unchecked, with every vertex of
    the graph. A call of [move_nodes] or [merge_nodes], with or without
    [consider_comms], that runs a pass with a vector shorter than [vcount()]
    is undefined behaviour; with a vector that has an entry for every vertex
    no read of it is out of bounds, in any pass, so the call is not. *)
Theorem fixed_vector_must_cover_the_graph
    {R G P : Type} `{Rng R} `{MutableVertexPartition R G P}
    `{!PartitionLaws R G P} `{!RngLaws R}
    (fuel : nat) (is_membership_fixed : list bool) (cc : consider_comms_t) (rfn : bool)
    (st : Optimiser R * P) :
  (length is_membership_fixed < vcount st.2 ->
   move_nodes (S fuel) is_membership_fixed st = Undefined /\
   move_nodes4 is_membership_fixed cc rfn st = Undefined /\
   merge_nodes (S fuel) is_membership_fixed st = Undefined /\
   merge_nodes4 (S fuel) is_membership_fixed cc rfn st = Undefined) /\
  (vcount st.2 <= length is_membership_fixed ->
   move_nodes fuel is_membership_fixed st <> Undefined /\
   move_nodes4 is_membership_fixed cc rfn st <> Undefined /\
   merge_nodes fuel is_membership_fixed st <> Undefined /\
   merge_nodes4 fuel is_membership_fixed cc rfn st <> Undefined).
Proof.
  split; intros Hlen.
  - split; [|split; [|split]].
    + unfold move_nodes. apply quality_delta_undefined.
      apply (loop_undefined is_membership_fixed); [|done].
      intros o. apply move_nodes_impl_visit_shape.
    + unfold move_nodes4, move_nodes4_pass.
      rewrite (shuffled_pass_undefined is_membership_fixed); [done| |done].
      intros o. apply move_nodes4_visit_shape.
    + unfold merge_nodes. apply quality_delta_undefined.
      apply (loop_undefined is_membership_fixed); [|done].
      intros o. apply merge_nodes_visit_shape.
    + unfold merge_nodes4. apply quality_delta_undefined.
      apply (loop_undefined is_membership_fixed); [|done].
      intros o. apply merge_nodes4_visit_shape.
  - split; [|split; [|split]].
    + unfold move_nodes. rewrite quality_delta_undefined.
      apply (loop_defined is_membership_fixed); [|done].
      intros o. apply move_nodes_impl_visit_shape.
    + unfold move_nodes4, move_nodes4_pass.
      destruct (shuffled_pass_defined is_membership_fixed
                  (fun o => move_nodes4_visit o is_membership_fixed cc) st
                  (fun o => move_nodes4_visit_shape o is_membership_fixed cc) Hlen)
        as ([o p] & b & -> & _).
      done.
    + unfold merge_nodes. rewrite quality_delta_undefined.
      apply (loop_defined is_membership_fixed); [|done].
      intros o. apply merge_nodes_visit_shape.
    + unfold merge_nodes4. rewrite quality_delta_undefined.
      apply (loop_defined is_membership_fixed); [|done].
      intros o. apply merge_nodes4_visit_shape.
Qed.

(** The three-vertex path: with an empty vector [merge_nodes] is undefined,
    with three entries it is not. *)
Lemma fixed_vector_must_cover_the_graph_witness :
  let st := (default_optimiser 42, path3) in
  merge_nodes 10 [] st = Undefined /\
  merge_nodes 10 [false; false; false] st <> Undefined.
Proof.
  intros st. split.
  - pose proof (fixed_vector_must_cover_the_graph 9 [] ALL_NEIGH_COMMS true st) as [Hw _].
    assert (length (@nil bool) < vcount (R:=Z) st.2) as Hlt by (vm_compute; lia).
    exact (proj1 (proj2 (proj2 (Hw Hlt)))).
  - pose proof (fixed_vector_must_cover_the_graph 10 [false; false; false]
                  ALL_NEIGH_COMMS true st) as [_ Hw].
    assert (vcount (R:=Z) st.2 <= length [false; false; false]) as Hle
      by (vm_compute; lia).
    exact (proj1 (proj2 (proj2 (Hw Hle)))).
Defined.
